(** * FinAI: the client-side pipeline of the statement analyser

    A shallow embedding of the TypeScript sources:
    - [types.ts]                      the data model,
    - [services/gemini]               extraction, chat session and speech calls,
    - [App]                           the application state controller,
    - [components/FileUpload]         file validation and encoding,
    - [components/ChatInterface]      the chat turn handler and the speak handler,
    - [components/Dashboard.tsx]      category aggregation and the search filter.

    Conventions of the embedding.
    - The texts of a statement (dates, descriptions, categories) and the
      search term are [Unicode.ustring]s: the UTF-16 code units of the
      JavaScript string, whatever they are. The other strings (messages,
      MIME types, identifiers, payloads) are [string]s of code units below
      256; the builtins used on them are written out in [JsString].
    - A [number] that the sources compute with as a number is a [float],
      the binary64 of IEEE 754 with its own addition, subtraction and
      comparison. Counts, sizes and clock readings are [N] or [nat].
    - An [await] on an external service is a handler split in the part before
      the call and the part after it; the outcome of the call is an argument
      of the second part.
    - Handlers run to completion, one event at a time. *)

From Stdlib Require Import Floats.
From Stdlib Require Import String Ascii List ZArith NArith Bool Lia.
From Stdlib Require Import DecimalString QArith.
From Stdlib Require Import Permutation Sorted.
From Stdlib.Strings Require Import Byte.
Import ListNotations.

Local Open Scope string_scope.
Local Open Scope list_scope.

(** ** JavaScript string builtins used by the sources *)

Module JsString.

Definition code (c : ascii) : N := N_of_ascii c.

(** [s.startsWith(p)]. *)
Fixpoint startsWith (s p : string) : bool :=
  match p, s with
  | EmptyString, _ => true
  | String _ _, EmptyString => false
  | String a p', String b s' => Ascii.eqb a b && startsWith s' p'
  end.

(** [s.includes(sub)]: [sub] occurs in [s] at some position. *)
Fixpoint includes (s sub : string) : bool :=
  startsWith s sub ||
  match s with
  | EmptyString => false
  | String _ s' => includes s' sub
  end.

(** White space and line terminators of ECMAScript below 256:
    TAB, LF, VT, FF, CR, SP and NBSP. *)
Definition is_white (c : ascii) : bool :=
  let n := code c in
  ((9 <=? n) && (n <=? 13) || (n =? 32) || (n =? 160))%N.

Fixpoint trimStart (s : string) : string :=
  match s with
  | EmptyString => EmptyString
  | String c s' => if is_white c then trimStart s' else s
  end.

Fixpoint trimEnd (s : string) : string :=
  match s with
  | EmptyString => EmptyString
  | String c s' =>
      match trimEnd s' with
      | EmptyString => if is_white c then EmptyString else String c EmptyString
      | r => String c r
      end
  end.

Definition trim (s : string) : string := trimEnd (trimStart s).

(** Truthiness of a string: only the empty string is falsy. *)
Definition truthy (s : string) : bool :=
  match s with EmptyString => false | _ => true end.

(** [s.split(sep)] for a one-character separator. *)
Fixpoint split (sep : ascii) (s : string) : list string :=
  match s with
  | EmptyString => [EmptyString]
  | String c s' =>
      if Ascii.eqb c sep then EmptyString :: split sep s'
      else match split sep s' with
           | [] => [String c EmptyString]
           | hd :: tl => String c hd :: tl
           end
  end.

(** [s.replace(/[...]/g, '')]: every character of the class is removed. *)
Fixpoint removeAll (cls : ascii -> bool) (s : string) : string :=
  match s with
  | EmptyString => EmptyString
  | String c s' =>
      if cls c then removeAll cls s' else String c (removeAll cls s')
  end.

(** Membership of a character in a string. *)
Fixpoint occurs (c : ascii) (s : string) : bool :=
  match s with
  | EmptyString => false
  | String d s' => Ascii.eqb c d || occurs c s'
  end.


End JsString.

(** ** Texts of a statement: JavaScript strings as UTF-16 code units *)

Module Unicode.

(** The code units of a string, each below 65536. *)
Definition ustring : Type := list N.

(** A text written with characters below 256, code unit by code unit. *)
Definition u (s : string) : ustring :=
  map N_of_ascii (list_ascii_of_string s).

(** [a === b] on strings. *)
Fixpoint eqb (a b : ustring) : bool :=
  match a, b with
  | [], [] => true
  | x :: a', y :: b' => (x =? y)%N && eqb a' b'
  | _, _ => false
  end.

(** [s.startsWith(p)]. *)
Fixpoint startsWith (s p : ustring) : bool :=
  match p, s with
  | [], _ => true
  | _ :: _, [] => false
  | a :: p', b :: s' => (a =? b)%N && startsWith s' p'
  end.

(** [s.includes(sub)]: the code units of [sub] occur in [s] at some
    position. *)
Fixpoint includes (s sub : ustring) : bool :=
  startsWith s sub ||
  match s with
  | [] => false
  | _ :: s' => includes s' sub
  end.

(** [s.slice(n)]: what follows the first [n] code units. *)
Definition slice (n : nat) (s : ustring) : ustring := skipn n s.

Definition is_high_surrogate (c : N) : bool :=
  ((0xD800 <=? c) && (c <=? 0xDBFF))%N.

Definition is_low_surrogate (c : N) : bool :=
  ((0xDC00 <=? c) && (c <=? 0xDFFF))%N.

(** [StringToCodePoints]: a high surrogate followed by a low one is one
    code point above U+FFFF, every other code unit is a code point by
    itself. *)
Fixpoint codePoints (s : ustring) : list N :=
  match s with
  | [] => []
  | h :: rest =>
      match rest with
      | l :: rest' =>
          if is_high_surrogate h && is_low_surrogate l
          then (0x10000 + (h - 0xD800) * 1024 + (l - 0xDC00))%N
               :: codePoints rest'
          else h :: codePoints rest
      | [] => [h]
      end
  end.

(** [CodePointsToString] for one code point. *)
Definition codeUnits (c : N) : ustring :=
  if (c <? 0x10000)%N then [c]
  else [(0xD800 + (c - 0x10000) / 1024)%N; (0xDC00 + (c - 0x10000) mod 1024)%N].

(** The case data of the Unicode Character Database that the embedding does
    not spell out: the lower-case mapping of the characters from U+0080 on
    whose mapping is one character, and the properties Cased and
    Case_Ignorable. *)
Record CaseData : Type := {
  lowerTable : N -> N;
  cased : N -> bool;
  caseIgnorable : N -> bool
}.

Definition capital_sigma : N := 0x3A3.
Definition small_sigma : N := 0x3C3.
Definition small_final_sigma : N := 0x3C2.
Definition capital_dotted_i : N := 0x130.

(** The lower-case mapping of a code point other than the two that
    [SpecialCasing] treats: A to Z move up by 32, the other characters
    below U+0080 stay, the rest is in the table. *)
Definition lowerChar (data : CaseData) (c : N) : N :=
  if (c <? 128)%N
  then (if ((65 <=? c) && (c <=? 90))%N then c + 32 else c)%N
  else lowerTable data c.

(** A cased letter, then case-ignorable characters: [l] is what stands
    before a character, nearest first, or what stands after it. *)
Fixpoint casedNext (data : CaseData) (l : list N) : bool :=
  match l with
  | [] => false
  | c :: rest => cased data c || (caseIgnorable data c && casedNext data rest)
  end.

(** The condition [Final_Sigma]: the character follows a cased letter and
    no cased letter follows it, case-ignorable characters in between
    set aside. *)
Definition finalSigma (data : CaseData) (before after : list N) : bool :=
  casedNext data before && negb (casedNext data after).

(** The lower-case form of the code points [s], which follow the code
    points [before] (nearest first): the capital sigma becomes the final
    or the plain small sigma, the capital I with a dot becomes an i and a
    combining dot, every other character takes its mapping. *)
Fixpoint lowerFrom (data : CaseData) (before s : list N) : list N :=
  match s with
  | [] => []
  | c :: rest =>
      (if (c =? capital_sigma)%N
       then [if finalSigma data before rest
             then small_final_sigma else small_sigma]
       else if (c =? capital_dotted_i)%N then [0x69; 0x307]%N
       else [lowerChar data c])
      ++ lowerFrom data (c :: before) rest
  end.

(** [String.prototype.toLowerCase]. *)
Definition toLowerCase (data : CaseData) (s : ustring) : ustring :=
  flat_map codeUnits (lowerFrom data [] (codePoints s)).

End Unicode.

(** ** Numbers: the order of the doubles *)

Module Double.

(** The place of a double that is a number among the doubles: its class
    (negative infinity, negative, zero, positive, positive infinity), then
    exponent and mantissa, both negated for a negative number. *)
Definition key (x : spec_float) : Z * Z * Z :=
  match x with
  | S754_nan => (0, 0, 0)
  | S754_zero _ => (0, 0, 0)
  | S754_infinity s => (if s then -2 else 2, 0, 0)
  | S754_finite s m e =>
      if s then (-1, - e, Z.neg m) else (1, e, Z.pos m)
  end%Z.

(** The order of such triples, first component first. *)
Definition below (a b : Z * Z * Z) : Prop :=
  (fst (fst a) < fst (fst b)
   \/ fst (fst a) = fst (fst b)
      /\ (snd (fst a) < snd (fst b)
          \/ snd (fst a) = snd (fst b) /\ snd a < snd b))%Z.

End Double.

(** ** The data model ([types.ts]) *)

Module Types.

Inductive TransactionType : Type := INCOME | EXPENSE.

Record Transaction : Type := {
  date : Unicode.ustring;
  description : Unicode.ustring;
  amount : float;
  type : TransactionType;
  category : Unicode.ustring
}.

Record AccountSummary : Type := {
  accountHolder : string;
  accountNumber : string;
  statementPeriod : string;
  currency : string;
  totalIncome : float;
  totalExpenses : float;
  openingBalance : float;
  closingBalance : float
}.

Record ParsedStatement : Type := {
  summary : AccountSummary;
  transactions : list Transaction;
  insights : list string
}.

Inductive Role : Type := user | model.

(** [timestamp] is the clock reading (milliseconds) of [new Date()]. *)
Record ChatMessage : Type := {
  id : string;
  role : Role;
  text : string;
  timestamp : N
}.

Inductive AppState : Type := IDLE | ANALYZING | DASHBOARD | ERROR.

Definition TransactionType_eqb (a b : TransactionType) : bool :=
  match a, b with
  | INCOME, INCOME | EXPENSE, EXPENSE => true
  | _, _ => false
  end.

Definition AppState_eqb (a b : AppState) : bool :=
  match a, b with
  | IDLE, IDLE | ANALYZING, ANALYZING | DASHBOARD, DASHBOARD | ERROR, ERROR => true
  | _, _ => false
  end.

End Types.

(** ** Base64 as the browser produces and reads it

    [FileReader.readAsDataURL] encodes the bytes of a file with the alphabet
    and padding of RFC 4648; [atob] reads such a text back. *)

Module Base64.

Definition alphabet : string :=
  "ABCDEFGHIJKLMNOPQRSTUVWXYZabcdefghijklmnopqrstuvwxyz0123456789+/".

Definition pad : ascii := "="%char.

(** The character of a six-bit value. *)
Definition digit (n : N) : ascii :=
  match String.get (N.to_nat n) alphabet with
  | Some c => c
  | None => pad
  end.

Fixpoint index_from (i : N) (c : ascii) (s : string) : option N :=
  match s with
  | EmptyString => None
  | String d s' => if Ascii.eqb c d then Some i else index_from (i + 1) c s'
  end.

(** The six-bit value of a character of the alphabet. *)
Definition value (c : ascii) : option N := index_from 0 c alphabet.

Definition byte_of_N (n : N) : byte :=
  match Byte.of_N n with
  | Some b => b
  | None => x00
  end.

Fixpoint encode (bs : list byte) : string :=
  match bs with
  | [] => EmptyString
  | [a] =>
      let x := Byte.to_N a in
      String (digit (x / 4))
        (String (digit ((x mod 4) * 16))
           (String pad (String pad EmptyString)))
  | [a; b] =>
      let x := Byte.to_N a in
      let y := Byte.to_N b in
      String (digit (x / 4))
        (String (digit ((x mod 4) * 16 + y / 16))
           (String (digit ((y mod 16) * 4))
              (String pad EmptyString)))
  | a :: b :: c :: rest =>
      let x := Byte.to_N a in
      let y := Byte.to_N b in
      let z := Byte.to_N c in
      String (digit (x / 4))
        (String (digit ((x mod 4) * 16 + y / 16))
           (String (digit ((y mod 16) * 4 + z / 64))
              (String (digit (z mod 64)) (encode rest))))
  end%N.

(** Decoding of a padded text, four characters at a time; [None] is the
    [InvalidCharacterError] of [atob]. *)
Fixpoint decode (s : string) : option (list byte) :=
  match s with
  | EmptyString => Some []
  | String c1 (String c2 (String c3 (String c4 rest))) =>
      match value c1, value c2 with
      | Some v1, Some v2 =>
          let b1 := byte_of_N (v1 * 4 + v2 / 16) in
          if Ascii.eqb c4 pad then
            match rest with
            | EmptyString =>
                if Ascii.eqb c3 pad then Some [b1]
                else match value c3 with
                     | Some v3 =>
                         Some [b1; byte_of_N ((v2 mod 16) * 16 + v3 / 4)]
                     | None => None
                     end
            | String _ _ => None
            end
          else
            match value c3, value c4, decode rest with
            | Some v3, Some v4, Some bs =>
                Some (b1 :: byte_of_N ((v2 mod 16) * 16 + v3 / 4)
                         :: byte_of_N ((v3 mod 4) * 64 + v4) :: bs)
            | _, _, _ => None
            end
      | _, _ => None
      end
  | _ => None
  end%N.

End Base64.

(** ** Thrown values, promises and the console *)

Module Runtime.

Inductive Exn : Type :=
| Error (message : string)     (* [new Error(message)] *)
| SyntaxError                  (* thrown by [JSON.parse] *)
| Rejection (cause : string).  (* a failed call of the service SDK *)

(** How an awaited call ends. *)
Inductive Settled (A : Type) : Type :=
| Rejected (e : Exn)
| Resolved (a : A).
Arguments Rejected {A} e.
Arguments Resolved {A} a.

(** One [console.error(label, e)]; [console.error(e)] has no label. *)
Record LogEntry : Type := { label : option string; thrown : Exn }.

Definition Console : Type := list LogEntry.

Definition console_error (l : option string) (e : Exn) (c : Console) : Console :=
  c ++ [{| label := l; thrown := e |}].

(** [a || b] on a possibly undefined string. *)
Definition or_else (a : option string) (b : string) : string :=
  match a with
  | Some s => if JsString.truthy s then s else b
  | None => b
  end.

(** [n.toString()] of a non-negative integer. *)
Definition toString (n : N) : string := NilEmpty.string_of_uint (N.to_uint n).

End Runtime.

(** ** [services/gemini]: extraction, the chat session, speech *)

Module Gemini.
Import Types Runtime.

(** The two holes of the system instruction template: [${context}], the
    serialised dataset, and [${data.summary.currency}]. The fixed persona
    text around them is not modelled. *)
Record SystemInstruction : Type := {
  dataContext : ParsedStatement;
  currencyRule : string
}.

(** The SDK's [Chat] object: what it was created with and the turns it
    has recorded. *)
Record Chat : Type := {
  chatModel : string;
  systemInstruction : SystemInstruction;
  history : list (string * option string)
}.

(** What outlives a handler: the module variable [chatSession] and the
    console. *)
Record World : Type := {
  chatSession : option Chat;
  console : Console
}.

Definition loaded : World := {| chatSession := None; console := [] |}.

Definition log (l : option string) (e : Exn) (w : World) : World :=
  {| chatSession := chatSession w; console := console_error l e (console w) |}.

Record ExtractionRequest : Type := {
  ex_model : string;
  ex_mimeType : string;
  ex_data : option string;
  ex_text : string
}.

Definition extractionRequest (fileBase64 : option string) (mimeType : string)
  : ExtractionRequest :=
  {| ex_model := "gemini-2.5-flash";
     ex_mimeType := mimeType;
     ex_data := fileBase64;
     ex_text := "Analyze this bank statement. Extract all transactions, account summary details, and key insights strictly following the JSON schema." |}.

Section Extraction.

(** [JSON.parse(text) as ParsedStatement]: [None] when [JSON.parse]
    throws its [SyntaxError]. *)
Variable JSON_parse : string -> option ParsedStatement.

(** The body of the [try]: [response] is how [generateContent] settled,
    carrying [response.text]. *)
Definition extract_body (response : Settled (option string))
  : Exn + ParsedStatement :=
  match response with
  | Rejected e => inl e
  | Resolved text =>
      match text with
      | None => inl (Error "No response from AI")
      | Some t =>
          if negb (JsString.truthy t) then inl (Error "No response from AI")
          else match JSON_parse t with
               | Some statement => inr statement
               | None => inl SyntaxError
               end
      end
  end.

Definition extractFinancialData (fileBase64 : option string) (mimeType : string)
  (response : Settled (option string)) (w : World)
  : (Exn + ParsedStatement) * World :=
  match extract_body response with
  | inr statement => (inr statement, w)
  | inl error => (inl error, log (Some "Extraction error:") error w)
  end.

End Extraction.

Definition initializeChat (data : ParsedStatement) (w : World) : World :=
  {| chatSession :=
       Some {| chatModel := "gemini-2.5-flash";
               systemInstruction :=
                 {| dataContext := data;
                    currencyRule := currency (summary data) |};
               history := [] |};
     console := console w |}.

(** The SDK records a turn once its request has succeeded. *)
Definition recordTurn (c : Chat) (message : string) (reply : option string) : Chat :=
  {| chatModel := chatModel c;
     systemInstruction := systemInstruction c;
     history := history c ++ [(message, reply)] |}.

(** [result] is how [chatSession.sendMessage] settled, carrying
    [result.text]; it is not consulted when there is no session. *)
Definition sendMessageToAssistant (message : string)
  (result : Settled (option string)) (w : World) : (Exn + string) * World :=
  match chatSession w with
  | None => (inl (Error "Chat session not initialized"), w)
  | Some session =>
      match result with
      | Resolved text =>
          (inr (or_else text "I couldn't generate a response."),
           {| chatSession := Some (recordTurn session message text);
              console := console w |})
      | Rejected error =>
          (inr "Sorry, I encountered an error analyzing that request.",
           log (Some "Chat error:") error w)
      end
  end.

Record SpeechRequest : Type := {
  tts_model : string;
  tts_text : string;
  tts_voiceName : string
}.

Definition speechRequest (text : string) : SpeechRequest :=
  {| tts_model := "gemini-2.5-flash-preview-tts";
     tts_text := text;
     tts_voiceName := "Kore" |}.

(** [response] carries the [inlineData.data] of the first part, if any. *)
Definition speakText (text : string) (response : Settled (option string))
  (w : World) : (Exn + string) * World :=
  let attempt :=
    match response with
    | Rejected e => inl e
    | Resolved audioData =>
        match audioData with
        | None => inl (Error "No audio data received from Gemini TTS")
        | Some d =>
            if negb (JsString.truthy d)
            then inl (Error "No audio data received from Gemini TTS")
            else inr d
        end
    end in
  match attempt with
  | inr d => (inr d, w)
  | inl error => (inl error, log (Some "TTS Error:") error w)
  end.

End Gemini.

(** ** [components/FileUpload]: validation and encoding of the chosen file *)

Module FileUpload.

(** The [File] of the DOM: [size] is its own attribute, [contents] are the
    bytes a [FileReader] reads. *)
Record File : Type := {
  name : string;
  type : string;
  size : N;
  contents : list byte
}.

(** [reader.result] after [readAsDataURL(file)], for a file whose type is
    a MIME type as browsers report it: the type is written into the URL as
    it is. What a reader writes for a type that is none (one holding a
    comma, say) differs from reader to reader and is not described. *)
Definition readAsDataURL (file : File) : string :=
  ("data:" ++ type file ++ ";base64," ++ Base64.encode (contents file))%string.

(** After the handler: the [error] state and the file handed to the reader. *)
Record Outcome : Type := {
  error : option string;
  reading : option File
}.

Definition handleFileChange (files : list File) (error0 : option string) : Outcome :=
  match files with
  | [] => {| error := error0; reading := None |}
  | file :: _ =>
      if negb (JsString.includes (type file) "pdf")
         && negb (JsString.includes (type file) "image")
      then {| error := Some "Please upload a PDF or an Image file.";
              reading := None |}
      else if (10 * 1024 * 1024 <? size file)%N
      then {| error := Some "File size exceeds 10MB."; reading := None |}
      else {| error := None; reading := Some file |}
  end.

(** [reader.onload]: the arguments of the [onFileSelect] call. *)
Definition reader_onload (file : File) : option string * string :=
  let result := readAsDataURL file in
  let base64 := nth_error (JsString.split "," result) 1 in
  (base64, type file).

(** The [onFileSelect] call a change event leads to, if any. *)
Definition onFileSelect_call (files : list File) (error0 : option string)
  : option (option string * string) :=
  option_map reader_onload (reading (handleFileChange files error0)).

End FileUpload.

(** ** [App]: the application state controller *)

Module App.
Import Types Runtime.

Inductive Tab : Type := dashboardTab | chatTab.

Record Model : Type := {
  appState : AppState;
  data : option ParsedStatement;
  activeTab : Tab
}.

Definition initial : Model :=
  {| appState := IDLE; data := None; activeTab := dashboardTab |}.

Definition setAppState (a : AppState) (m : Model) : Model :=
  {| appState := a; data := data m; activeTab := activeTab m |}.

Definition setData (d : option ParsedStatement) (m : Model) : Model :=
  {| appState := appState m; data := d; activeTab := activeTab m |}.

Definition setActiveTab (t : Tab) (m : Model) : Model :=
  {| appState := appState m; data := data m; activeTab := t |}.

Definition resetApp (m : Model) : Model :=
  setActiveTab dashboardTab (setData None (setAppState IDLE m)).

Section Controller.

Variable JSON_parse : string -> option ParsedStatement.

(** [handleFileProcess] up to its [await]. *)
Definition handleFileProcess_start (m : Model) : Model :=
  setAppState ANALYZING m.

(** [handleFileProcess] from its [await] on. *)
Definition handleFileProcess_settle (base64 : option string) (mimeType : string)
  (response : Settled (option string)) (st : Model * Gemini.World)
  : Model * Gemini.World :=
  let (m, w) := st in
  match Gemini.extractFinancialData JSON_parse base64 mimeType response w with
  | (inr result, w1) =>
      (setAppState DASHBOARD (setData (Some result) m),
       Gemini.initializeChat result w1)
  | (inl error, w1) =>
      (setAppState ERROR m, Gemini.log None error w1)
  end.

Definition handleFileProcess (base64 : option string) (mimeType : string)
  (response : Settled (option string)) (st : Model * Gemini.World)
  : Model * Gemini.World :=
  handleFileProcess_settle base64 mimeType response
    (handleFileProcess_start (fst st), snd st).

(** What can happen to the page. [Upload] is a file chosen in the idle
    view: [handleFileProcess] runs up to its [await]. [Response] is the
    answer to such a request, with the payload the request carried: the
    rest of that [handleFileProcess] runs, in whatever state the page is by
    then. [NewUpload] (the reset button) is offered by every view but the
    idle one, the analyzing view included; the tab buttons and the chat are
    offered by the dashboard view. *)
Inductive Event : Type :=
| Upload
| Response (base64 : option string) (mimeType : string)
           (response : Settled (option string))
| NewUpload
| SelectTab (t : Tab)
| Ask (message : string) (result : Settled (option string)).

Definition step (e : Event) (st : Model * Gemini.World)
  : option (Model * Gemini.World) :=
  let (m, w) := st in
  match e with
  | Upload =>
      if AppState_eqb (appState m) IDLE
      then Some (handleFileProcess_start m, w)
      else None
  | Response base64 mimeType response =>
      Some (handleFileProcess_settle base64 mimeType response st)
  | NewUpload =>
      if AppState_eqb (appState m) IDLE then None
      else Some (resetApp m, w)
  | SelectTab t =>
      if AppState_eqb (appState m) DASHBOARD
      then Some (setActiveTab t m, w)
      else None
  | Ask message result =>
      match appState m, data m, activeTab m with
      | DASHBOARD, Some _, chatTab =>
          Some (m, snd (Gemini.sendMessageToAssistant message result w))
      | _, _, _ => None
      end
  end.

(** The extraction requests in flight after an event that occurs with [n]
    of them in flight: an upload adds one, a response answers one. *)
Definition inflightAfter (e : Event) (n : nat) : option nat :=
  match e with
  | Upload => Some (S n)
  | Response _ _ _ => match n with O => None | S k => Some k end
  | NewUpload | SelectTab _ | Ask _ _ => Some n
  end.

(** [run n st]: the page can be in state [st] with [n] extraction requests
    in flight. *)
Inductive run : nat -> Model * Gemini.World -> Prop :=
| run_initial : run 0 (initial, Gemini.loaded)
| run_step e n n' st st' :
    run n st -> inflightAfter e n = Some n' -> step e st = Some st' ->
    run n' st'.

Definition reachable (st : Model * Gemini.World) : Prop :=
  exists n, run n st.

End Controller.

(** What holds of the controller between two events: the idle state has no
    dataset and shows the dashboard tab, the dashboard state has a dataset,
    and a stored dataset comes with the session created for it. *)
Definition consistent (st : Model * Gemini.World) : Prop :=
  (appState (fst st) = IDLE ->
   data (fst st) = None /\ activeTab (fst st) = dashboardTab)
  /\ (appState (fst st) = DASHBOARD -> data (fst st) <> None)
  /\ (forall d, data (fst st) = Some d ->
        exists session,
          Gemini.chatSession (snd st) = Some session
          /\ Gemini.dataContext (Gemini.systemInstruction session) = d).

(** What the page shows under the navigation bar. Each block of the JSX is
    guarded by one value of [appState]; the dashboard block also needs a
    dataset, and shows the chat instead of the charts on the chat tab. *)
Inductive MainView : Type :=
| IdleView
| AnalyzingView
| ErrorView
| DashboardView (d : ParsedStatement)
| ChatView
| NoView.

Definition mainView (m : Model) : MainView :=
  match appState m with
  | IDLE => IdleView
  | ANALYZING => AnalyzingView
  | ERROR => ErrorView
  | DASHBOARD =>
      match data m with
      | Some d =>
          match activeTab m with
          | dashboardTab => DashboardView d
          | chatTab => ChatView
          end
      | None => NoView
      end
  end.

End App.

(** ** [components/ChatInterface]: the chat turn handler and the speak handler *)

Module ChatInterface.
Import Types Runtime.

(** The state of one mounted component; [playing] stands for a non-null
    [sourceNodeRef.current]. *)
Record State : Type := {
  messages : list ChatMessage;
  input : string;
  isTyping : bool;
  isListening : bool;
  activeAudioId : option string;
  isLoadingAudio : option string;
  playing : bool
}.

(** The first message of the transcript; its text is the fixed greeting of
    the source. *)
Definition greeting (greetingText : string) (now : N) : ChatMessage :=
  {| id := "1"; role := model; text := greetingText; timestamp := now |}.

Definition mounted (greetingText : string) (now : N) : State :=
  {| messages := [greeting greetingText now];
     input := "";
     isTyping := false;
     isListening := false;
     activeAudioId := None;
     isLoadingAudio := None;
     playing := false |}.

Definition setInput (v : string) (s : State) : State :=
  {| messages := messages s; input := v; isTyping := isTyping s;
     isListening := isListening s; activeAudioId := activeAudioId s;
     isLoadingAudio := isLoadingAudio s; playing := playing s |}.

Definition setIsTyping (b : bool) (s : State) : State :=
  {| messages := messages s; input := input s; isTyping := b;
     isListening := isListening s; activeAudioId := activeAudioId s;
     isLoadingAudio := isLoadingAudio s; playing := playing s |}.

Definition appendMessage (m : ChatMessage) (s : State) : State :=
  {| messages := messages s ++ [m]; input := input s; isTyping := isTyping s;
     isListening := isListening s; activeAudioId := activeAudioId s;
     isLoadingAudio := isLoadingAudio s; playing := playing s |}.

Definition setIsLoadingAudio (v : option string) (s : State) : State :=
  {| messages := messages s; input := input s; isTyping := isTyping s;
     isListening := isListening s; activeAudioId := activeAudioId s;
     isLoadingAudio := v; playing := playing s |}.

(** [textOverride || input]. *)
Definition textToSend (textOverride : option string) (s : State) : string :=
  or_else textOverride (input s).

(** [handleSend] up to its [await]: the new state and the message handed to
    [sendMessageToAssistant], if the guard lets the call through. *)
Definition handleSend_call (textOverride : option string) (now : N) (s : State)
  : State * option string :=
  let t := textToSend textOverride s in
  if negb (JsString.truthy (JsString.trim t)) || isTyping s then (s, None)
  else
    let userMsg :=
      {| id := toString now; role := user; text := t; timestamp := now |} in
    (setIsTyping true (setInput "" (appendMessage userMsg s)),
     Some (text userMsg)).

(** [handleSend] from its [await] on: [answer] is what
    [sendMessageToAssistant] returned or threw. *)
Definition handleSend_settle (now : N) (answer : Exn + string)
  (st : State * Gemini.World) : State * Gemini.World :=
  let (s, w) := st in
  match answer with
  | inr responseText =>
      let botMsg :=
        {| id := toString (now + 1); role := model; text := responseText;
           timestamp := now |} in
      (setIsTyping false (appendMessage botMsg s), w)
  | inl error =>
      let errorMsg :=
        {| id := toString (now + 1); role := model;
           text := "I'm having trouble connecting right now. Please try again.";
           timestamp := now |} in
      (setIsTyping false (appendMessage errorMsg s), Gemini.log None error w)
  end.

(** The component with its environment: [inflight] lists the messages whose
    [sendMessageToAssistant] call has not settled yet, oldest first. *)
Record Conversation : Type := {
  ui : State;
  world : Gemini.World;
  inflight : list string
}.

Inductive Event : Type :=
| Typed (value : string)
| Heard (transcript : string)
| Send (textOverride : option string) (now : N)
| Settle (result : Settled (option string)) (now : N).

Definition step (e : Event) (c : Conversation) : option Conversation :=
  match e with
  | Typed v =>
      Some {| ui := setInput v (ui c); world := world c; inflight := inflight c |}
  | Heard transcript =>
      let prev := input (ui c) in
      let v := if JsString.truthy prev
               then (prev ++ " " ++ transcript)%string else transcript in
      Some {| ui := setInput v (ui c); world := world c; inflight := inflight c |}
  | Send textOverride now =>
      let (s, call) := handleSend_call textOverride now (ui c) in
      Some {| ui := s; world := world c;
              inflight := inflight c ++ match call with
                                        | Some m => [m]
                                        | None => []
                                        end |}
  | Settle result now =>
      match inflight c with
      | [] => None
      | m :: rest =>
          let (answer, w) := Gemini.sendMessageToAssistant m result (world c) in
          let (s, w') := handleSend_settle now answer (ui c, w) in
          Some {| ui := s; world := w'; inflight := rest |}
      end
  end.

(** The states of one mounted component, mounted with no request
    pending. *)
Inductive reachable (greetingText : string) (w0 : Gemini.World) (t0 : N)
  : Conversation -> Prop :=
| reachable_mounted :
    reachable greetingText w0 t0
      {| ui := mounted greetingText t0; world := w0; inflight := [] |}
| reachable_step e c c' :
    reachable greetingText w0 t0 c -> step e c = Some c' ->
    reachable greetingText w0 t0 c'.

(** The roles of [n] completed turns: a user message, then its answer. *)
Fixpoint turns (n : nat) : list Role :=
  match n with
  | O => []
  | S k => turns k ++ [user; model]
  end.

(** The turns of a component are serialized: at most one of its requests is
    in flight, the typing flag is set exactly while one is, and the
    transcript is the greeting, the completed turns and the user message of
    the request in flight. *)
Definition serialized (c : Conversation) : Prop :=
  (length (inflight c) <= 1)%nat
  /\ (isTyping (ui c) = true <-> inflight c <> [])
  /\ (forall m, In m (inflight c) ->
                exists before u,
                  messages (ui c) = before ++ [u]
                  /\ text u = m /\ role u = user)
  /\ exists n,
       map role (messages (ui c))
       = model :: turns n ++ map (fun _ => user) (inflight c).

(** The chat as the page hosts it. [App] renders [<ChatInterface />] only
    while the chat tab is selected: a switch to the dashboard tab and back
    discards the component and mounts a new one, whose state starts afresh,
    while the session of the service module and the requests the old
    component was waiting for stay. [orphans] lists those requests, oldest
    first. *)
Record Hosted : Type := {
  current : Conversation;
  orphans : list string
}.

(** Every request that has not settled yet, oldest first. *)
Definition pending (h : Hosted) : list string :=
  orphans h ++ inflight (current h).

Inductive HostEvent : Type :=
| InChat (e : Event)
| Remount (now : N)
| SettleOrphan (result : Settled (option string)).

(** [SettleOrphan] is the rest of [handleSend] for a component that is gone:
    its state updates are dropped, the [console.error] of its [catch] is
    not. *)
Definition hostedStep (greetingText : string) (e : HostEvent) (h : Hosted)
  : option Hosted :=
  match e with
  | InChat e' =>
      match step e' (current h) with
      | Some c => Some {| current := c; orphans := orphans h |}
      | None => None
      end
  | Remount now =>
      Some {| current := {| ui := mounted greetingText now;
                            world := world (current h);
                            inflight := [] |};
              orphans := pending h |}
  | SettleOrphan result =>
      match orphans h with
      | [] => None
      | m :: rest =>
          let (answer, w) :=
            Gemini.sendMessageToAssistant m result (world (current h)) in
          let w' := match answer with
                    | inl error => Gemini.log None error w
                    | inr _ => w
                    end in
          Some {| current := {| ui := ui (current h); world := w';
                                inflight := inflight (current h) |};
                  orphans := rest |}
      end
  end.

(** The states of the chat from its first mount on, tab switches
    included. *)
Inductive hosted (greetingText : string) (w0 : Gemini.World) (t0 : N)
  : Hosted -> Prop :=
| hosted_mounted :
    hosted greetingText w0 t0
      {| current := {| ui := mounted greetingText t0; world := w0;
                       inflight := [] |};
         orphans := [] |}
| hosted_step e h h' :
    hosted greetingText w0 t0 h -> hostedStep greetingText e h = Some h' ->
    hosted greetingText w0 t0 h'.

(** The class [[*#_`]] of the speak handler's regular expression. *)
Definition emphasis (c : ascii) : bool :=
  Ascii.eqb c "*" || Ascii.eqb c "#" || Ascii.eqb c "_" || Ascii.eqb c "`".

Definition stopAudio (s : State) : State :=
  {| messages := messages s; input := input s; isTyping := isTyping s;
     isListening := isListening s; activeAudioId := None;
     isLoadingAudio := None; playing := false |}.

(** [activeAudioId === msgId]. *)
Definition is_active (s : State) (msgId : string) : bool :=
  match activeAudioId s with
  | Some a => String.eqb a msgId
  | None => false
  end.

(** [handleSpeak] up to its [await]: the new state and the request
    [speakText] sends, if any. *)
Definition handleSpeak_call (msgId text : string) (s : State)
  : State * option Gemini.SpeechRequest :=
  if is_active s msgId then (stopAudio s, None)
  else
    let s1 := match activeAudioId s with
              | Some a => if JsString.truthy a then stopAudio s else s
              | None => s
              end in
    let cleanText := JsString.removeAll emphasis text in
    (setIsLoadingAudio (Some msgId) s1, Some (Gemini.speechRequest cleanText)).

(** [decodeBase64]: the bytes of the binary string [atob] returns; [atob]
    is the browser's, [None] its [InvalidCharacterError]. *)
Definition decodeBase64 (atob : string -> option string) (base64 : string)
  : option (list byte) :=
  option_map (fun binaryString =>
                map byte_of_ascii (list_ascii_of_string binaryString))
             (atob base64).

(** One element of an [Int16Array]: two bytes, the low one first, read as a
    signed number. *)
Definition int16 (lo hi : byte) : Z :=
  let u := (Z.of_N (Byte.to_N lo) + 256 * Z.of_N (Byte.to_N hi))%Z in
  if (u <? 32768)%Z then u else (u - 65536)%Z.

(** [new Int16Array(pcmData.buffer)]; [None] is the [RangeError] of a
    buffer with an odd number of bytes. *)
Fixpoint Int16Array (bytes : list byte) : option (list Z) :=
  match bytes with
  | [] => Some []
  | [_] => None
  | lo :: hi :: rest =>
      match Int16Array rest with
      | Some values => Some (int16 lo hi :: values)
      | None => None
      end
  end.

(** The loop that fills the channel: [dataInt16[i] / 32768.0], a quotient
    by a power of two and so the same number in floating point. *)
Definition channelData (dataInt16 : list Z) : list Q :=
  map (fun v => Qmake v 32768) dataInt16.

(** The samples [handleSpeak] plays for a payload, if it gets that far. *)
Definition pcmSamples (atob : string -> option string) (audioBase64 : string)
  : option (list Q) :=
  match decodeBase64 atob audioBase64 with
  | Some pcmData => option_map channelData (Int16Array pcmData)
  | None => None
  end.

Definition setActiveAudioId (v : option string) (s : State) : State :=
  {| messages := messages s; input := input s; isTyping := isTyping s;
     isListening := isListening s; activeAudioId := v;
     isLoadingAudio := isLoadingAudio s; playing := playing s |}.

Definition setPlaying (b : bool) (s : State) : State :=
  {| messages := messages s; input := input s; isTyping := isTyping s;
     isListening := isListening s; activeAudioId := activeAudioId s;
     isLoadingAudio := isLoadingAudio s; playing := b |}.

(** The [catch] of [handleSpeak]. *)
Definition handleSpeak_catch (err : Exn) (st : State * Gemini.World)
  : State * Gemini.World :=
  (setActiveAudioId None (setIsLoadingAudio None (fst st)),
   Gemini.log (Some "Audio playback failed") err (snd st)).

(** [handleSpeak] from its [await] on. [speech] is what [speakText]
    returned or threw; [context] is how getting a running [AudioContext]
    ended, [output] how creating the buffer and starting the source ended
    (both are the browser's). The errors of [atob] and of the [Int16Array]
    are the browser's as well; they are logged as an [Error] with the
    name of the exception. *)
Definition handleSpeak_settle (atob : string -> option string) (msgId : string)
  (speech : Exn + string) (context output : Settled unit)
  (st : State * Gemini.World) : State * Gemini.World :=
  match speech with
  | inl err => handleSpeak_catch err st
  | inr audioBase64 =>
      match context with
      | Rejected err => handleSpeak_catch err st
      | Resolved _ =>
          match decodeBase64 atob audioBase64 with
          | None => handleSpeak_catch (Error "InvalidCharacterError") st
          | Some pcmData =>
              match Int16Array pcmData with
              | None => handleSpeak_catch (Error "RangeError") st
              | Some _ =>
                  match output with
                  | Rejected err => handleSpeak_catch err st
                  | Resolved _ =>
                      (setActiveAudioId (Some msgId)
                         (setIsLoadingAudio None (setPlaying true (fst st))),
                       snd st)
                  end
              end
          end
      end
  end.

(** The whole of [handleSpeak] for one click: the part before the [await],
    [speakText] on the cleaned text, the part after. *)
Definition handleSpeak (atob : string -> option string) (msgId text : string)
  (response : Settled (option string)) (context output : Settled unit)
  (st : State * Gemini.World) : State * Gemini.World :=
  match handleSpeak_call msgId text (fst st) with
  | (s, None) => (s, snd st)
  | (s, Some request) =>
      let (speech, w) :=
        Gemini.speakText (Gemini.tts_text request) response (snd st) in
      handleSpeak_settle atob msgId speech context output (s, w)
  end.

End ChatInterface.

(** ** [components/Dashboard.tsx]: category aggregation and the search filter *)

Module Dashboard.
Import Types Unicode.

(** What a property of [categories] or [days] can hold. The objects are
    declared [Record<string, number>], but the [+] that fills them
    concatenates when its left operand is not a number. [Text member
    appended] is the text of the value of the member [member] of
    [Object.prototype], followed by the texts of the numbers [appended];
    it is never empty and never a numeral. *)
Inductive JsVal : Type :=
| Num (x : float)
| Text (member : ustring) (appended : list float).

(** The own properties of an object built from [{}], in the order they
    were created. *)
Definition Categories : Type := list (ustring * JsVal).

Fixpoint own (cats : Categories) (k : ustring) : option JsVal :=
  match cats with
  | [] => None
  | (k', v) :: rest => if Unicode.eqb k' k then Some v else own rest k
  end.

(** An own property is overwritten where it is, or created last. *)
Fixpoint store (cats : Categories) (k : ustring) (v : JsVal) : Categories :=
  match cats with
  | [] => [(k, v)]
  | (k', v') :: rest =>
      if Unicode.eqb k' k then (k', v) :: rest else (k', v') :: store rest k v
  end.

(** The members of [Object.prototype], which an object built from [{}]
    inherits: eleven functions and the accessor [__proto__]. *)
Definition inherited : list ustring :=
  map u ["constructor"; "__defineGetter__"; "__defineSetter__";
         "hasOwnProperty"; "__lookupGetter__"; "__lookupSetter__";
         "isPrototypeOf"; "propertyIsEnumerable"; "toString"; "valueOf";
         "toLocaleString"; "__proto__"].

Definition is_inherited (k : ustring) : bool :=
  existsb (Unicode.eqb k) inherited.

(** What [object[k]] finds: an own property, else a member of the
    prototype, else nothing. *)
Inductive Read : Type :=
| Undefined
| Own (v : JsVal)
| Inherited (member : ustring).

Definition read (cats : Categories) (k : ustring) : Read :=
  match own cats k with
  | Some v => Own v
  | None => if is_inherited k then Inherited k else Undefined
  end.

(** The falsy numbers: zero, negative zero and NaN. *)
Definition falsy (x : float) : bool :=
  PrimFloat.is_zero x || PrimFloat.is_nan x.

(** [object[k] || 0]. A text that is not empty, a function and an object
    are truthy. *)
Definition or_zero (r : Read) : JsVal :=
  match r with
  | Undefined => Num 0
  | Own (Num x) => if falsy x then Num 0 else Num x
  | Own (Text member appended) => Text member appended
  | Inherited member => Text member []
  end.

(** [v + amount]: the sum of two doubles, or a concatenation. *)
Definition plus (v : JsVal) (a : float) : JsVal :=
  match v with
  | Num x => Num (x + a)
  | Text member appended => Text member (appended ++ [a])
  end.

(** [object[k] = v] for a number or a text [v]. The setter of [__proto__]
    ignores such a value; under any other key the value becomes an own
    property. *)
Definition assign (cats : Categories) (k : ustring) (v : JsVal) : Categories :=
  if Unicode.eqb k (u "__proto__") then cats else store cats k v.

(** The objects all of whose properties hold numbers, as the declared type
    has it. *)
Definition numeric (cats : Categories) : Prop :=
  Forall (fun e : ustring * JsVal => exists x, snd e = Num x) cats.

(** The number under a key; zero when the key holds none. *)
Definition held (cats : Categories) (k : ustring) : float :=
  match own cats k with
  | Some (Num x) => x
  | _ => 0
  end.

Definition is_digit (c : N) : bool := ((48 <=? c) && (c <=? 57))%N.

Fixpoint decimal (acc : N) (s : ustring) : option N :=
  match s with
  | [] => Some acc
  | c :: s' =>
      if is_digit c then decimal (acc * 10 + (c - 48))%N s' else None
  end.

(** A property key that is an array index: a canonical decimal numeral
    below 2^32 - 1. *)
Definition array_index (k : ustring) : option N :=
  match k with
  | [] => None
  | c :: rest =>
      if (c =? 48)%N && negb (Nat.eqb (length rest) 0) then None
      else match decimal 0 k with
           | Some n => if (n <? 4294967295)%N then Some n else None
           | None => None
           end
  end.

Fixpoint insert_index (i : N) (e : ustring * JsVal)
  (l : list (N * (ustring * JsVal))) : list (N * (ustring * JsVal)) :=
  match l with
  | [] => [(i, e)]
  | (j, e') :: rest =>
      if (i <? j)%N then (i, e) :: l else (j, e') :: insert_index i e rest
  end.

Fixpoint index_entries (cats : Categories) : list (N * (ustring * JsVal)) :=
  match cats with
  | [] => []
  | e :: rest =>
      match array_index (fst e) with
      | Some i => insert_index i e (index_entries rest)
      | None => index_entries rest
      end
  end.

Definition named (e : ustring * JsVal) : bool :=
  match array_index (fst e) with Some _ => false | None => true end.

(** [Object.entries]: array-index keys in ascending order, then the other
    keys in creation order. *)
Definition Object_entries (cats : Categories) : list (ustring * JsVal) :=
  map snd (index_entries cats) ++ filter named cats.

Record Slice : Type := { name : ustring; value : JsVal }.

(** [ToNumber]. *)
Definition toNumber (v : JsVal) : float :=
  match v with
  | Num x => x
  | Text _ _ => nan
  end.

(** The comparator [(a, b) => b.value - a.value]. *)
Definition comparator (a b : Slice) : float :=
  (toNumber (value b) - toNumber (value a))%float.

(** [a] goes behind [b] when the comparator is positive; a comparator
    that is NaN counts as zero. *)
Definition behind (a b : Slice) : bool := (0 <? comparator a b)%float.

(** [sort(comparator)]. The sort is stable, so with a comparator that
    orders the elements consistently its result is the one of inserting
    each element, from the last to the first, before the first element it
    does not go behind. Where the comparator is not consistent (a NaN or a
    text among the values of two or more elements) the order is the
    engine's choice among the permutations, and this one may not be it. *)
Fixpoint insert_desc (a : Slice) (l : list Slice) : list Slice :=
  match l with
  | [] => [a]
  | b :: rest => if behind a b then b :: insert_desc a rest else a :: l
  end.

Definition sort_desc (l : list Slice) : list Slice :=
  fold_right insert_desc [] l.

(** The body of the [forEach] of [categoryData]. *)
Definition accumulate (cats : Categories) (t : Transaction) : Categories :=
  assign cats (category t)
    (plus (or_zero (read cats (category t))) (amount t)).

Definition is_expense (t : Transaction) : bool :=
  TransactionType_eqb (type t) EXPENSE.

Definition categoryData (txs : list Transaction) : list Slice :=
  let expenses := filter is_expense txs in
  let categories := fold_left accumulate expenses [] in
  firstn 6
    (sort_desc
       (map (fun e => {| name := fst e; value := snd e |})
            (Object_entries categories))).

Definition search_match (data : CaseData) (searchTerm : ustring)
  (t : Transaction) : bool :=
  includes (toLowerCase data (description t)) (toLowerCase data searchTerm)
  || includes (toLowerCase data (category t)) (toLowerCase data searchTerm).

Definition filteredTransactions (data : CaseData) (searchTerm : ustring)
  (txs : list Transaction) : list Transaction :=
  filter (search_match data searchTerm) txs.

(** One bar of the daily chart: [{ name, amount }]. *)
Record Bar : Type := { bar_name : ustring; bar_amount : JsVal }.

(** The body of the [forEach] of [dailyVolume]. *)
Definition addDay (days : Categories) (t : Transaction) : Categories :=
  let shortDate := slice 5 (date t) in
  assign days shortDate (plus (or_zero (read days shortDate)) (amount t)).

Definition dailyVolume (txs : list Transaction) : list Bar :=
  let days := fold_left addDay txs [] in
  map (fun e => {| bar_name := fst e; bar_amount := snd e |})
      (Object_entries days).

Definition COLORS : list string :=
  ["#3b82f6"; "#10b981"; "#f59e0b"; "#ef4444"; "#8b5cf6"; "#ec4899"; "#6366f1"].

(** [COLORS[index % COLORS.length]], the fill of the [index]-th slice of
    the category chart. *)
Definition cellFill (index : nat) : option string :=
  nth_error COLORS (index mod length COLORS).

(** [ToInt32] on an integer. *)
Definition toInt32 (z : Z) : Z :=
  ((z + 2147483648) mod 4294967296 - 2147483648)%Z.

(** [hash << 5]. *)
Definition shl5 (hash : Z) : Z := toInt32 (toInt32 hash * 32).

(** The loop of [getCategoryColor], from a given value of [hash];
    [charCodeAt] gives the code units one by one. Each round adds less
    than 2^32 to the size of [hash], so for any text a statement can hold
    the numbers are integers that a double holds exactly. *)
Fixpoint hashFrom (hash : Z) (category : ustring) : Z :=
  match category with
  | [] => hash
  | c :: rest => hashFrom (Z.of_N c + (shl5 hash - hash))%Z rest
  end.

Definition colors : list string :=
  ["bg-blue-100 text-blue-700 border-blue-200";
   "bg-purple-100 text-purple-700 border-purple-200";
   "bg-emerald-100 text-emerald-700 border-emerald-200";
   "bg-amber-100 text-amber-700 border-amber-200";
   "bg-pink-100 text-pink-700 border-pink-200";
   "bg-cyan-100 text-cyan-700 border-cyan-200"].

(** [None] would be an [undefined] class. *)
Definition getCategoryColor (category : ustring) : option string :=
  nth_error colors
    (Z.to_nat (Z.abs (hashFrom 0 category) mod Z.of_nat (length colors))).

End Dashboard.

(** ** The properties of the specification, in its own words *)

Module Spec.
Import Types Unicode.

(** [Stripped cls s r]: [r] is [s] with every character of the class [cls]
    taken out and every other character left where it was. *)
Inductive Stripped (cls : ascii -> bool) : string -> string -> Prop :=
| Stripped_empty : Stripped cls EmptyString EmptyString
| Stripped_drop c s r :
    cls c = true -> Stripped cls s r -> Stripped cls (String c s) r
| Stripped_keep c s r :
    cls c = false -> Stripped cls s r -> Stripped cls (String c s) (String c r).

(** Two characters that differ in their case at most: they have the same
    lower-case form. *)
Definition same_letter (data : CaseData) (c d : N) : Prop :=
  lowerChar data c = lowerChar data d.

(** Two texts that differ in the case of their letters only. *)
Definition same_ignoring_case (data : CaseData) (a b : ustring) : Prop :=
  Forall2 (same_letter data) a b.

(** [term] occurs in [s] as a case-insensitive substring. *)
Definition contains_ignoring_case (data : CaseData) (s term : ustring) : Prop :=
  exists before found after,
    s = before ++ found ++ after /\ same_ignoring_case data found term.

(** A transaction matches a search term through its description or its
    category. *)
Definition matches (data : CaseData) (term : ustring) (t : Transaction) : Prop :=
  contains_ignoring_case data (description t) term
  \/ contains_ignoring_case data (category t) term.

(** The code units of [sub] occur in [s], next to each other. *)
Definition occurs_in (sub s : ustring) : Prop :=
  exists before after, s = before ++ sub ++ after.

(** The lower-case form of the term occurs in the lower-case form of the
    description or of the category. *)
Definition matches_in_lower_case (data : CaseData) (term : ustring)
  (t : Transaction) : Prop :=
  occurs_in (toLowerCase data term) (toLowerCase data (description t))
  \/ occurs_in (toLowerCase data term) (toLowerCase data (category t)).

(** A character of the Basic Multilingual Plane that is neither half of a
    surrogate pair nor one of the two letters whose lower-case form depends
    on its neighbours or is longer than the letter: the capital sigma and
    the capital I with a dot. *)
Definition plain_letter (c : N) : Prop :=
  (c < 0x10000)%N
  /\ is_high_surrogate c = false /\ is_low_surrogate c = false
  /\ c <> capital_sigma /\ c <> capital_dotted_i.

Definition plain (s : ustring) : Prop := Forall plain_letter s.

(** The lower-case mapping stays within the Basic Multilingual Plane, as
    the one of the Unicode Character Database does. *)
Definition within_plane (data : CaseData) : Prop :=
  forall c, (c < 0x10000)%N -> (lowerTable data c < 0x10000)%N.

(** [Exactly P l r]: [r] holds exactly the elements of [l] that satisfy [P],
    as often and in the order they occur in [l]. *)
Inductive Exactly {A : Type} (P : A -> Prop) : list A -> list A -> Prop :=
| Exactly_nil : Exactly P [] []
| Exactly_take x l r : P x -> Exactly P l r -> Exactly P (x :: l) (x :: r)
| Exactly_skip x l r : ~ P x -> Exactly P l r -> Exactly P (x :: l) r.

(** [c] is the category of some EXPENSE transaction. *)
Definition expense_category (c : ustring) (txs : list Transaction) : Prop :=
  exists t, In t txs /\ type t = EXPENSE /\ category t = c.

(** The amounts of the EXPENSE transactions of a category, in the order of
    the statement. *)
Definition expense_amounts (c : ustring) (txs : list Transaction) : list float :=
  map amount
    (filter (fun t => TransactionType_eqb (type t) EXPENSE
                      && Unicode.eqb (category t) c) txs).

(** The amounts of the transactions of a day: those whose date ends in
    [day] after its first five code units. *)
Definition day_amounts (day : ustring) (txs : list Transaction) : list float :=
  map amount (filter (fun t => Unicode.eqb (skipn 5 (date t)) day) txs).

(** Numbers added up one after the other in double arithmetic, from [s]
    on; a running sum that is zero or not a number counts as zero. *)
Definition add_up (s : float) (amounts : list float) : float :=
  fold_left
    (fun s a =>
       ((if PrimFloat.is_zero s || PrimFloat.is_nan s then 0 else s) + a)%float)
    amounts s.

(** The sum of numbers in double arithmetic, added from the first to the
    last. *)
Definition sum (amounts : list float) : float :=
  fold_left PrimFloat.add amounts 0%float.

(** A number that is not below zero. *)
Definition nonnegative (x : float) : Prop := (0 <=? x)%float = true.

(** The total of a category: the amounts of its EXPENSE transactions added
    up from zero. *)
Definition expense_total (c : ustring) (txs : list Transaction) : float :=
  add_up 0 (expense_amounts c txs).

(** The totals of the categories of the EXPENSE transactions. *)
Definition expense_totals (txs : list Transaction) : list float :=
  map (fun t => expense_total (category t) txs)
      (filter (fun t => TransactionType_eqb (type t) EXPENSE) txs).

(** The total of a day: the amounts of its transactions added up from
    zero. *)
Definition day_total (day : ustring) (txs : list Transaction) : float :=
  add_up 0 (day_amounts day txs).

(** [x] exceeds [y]: their difference, in double arithmetic, is positive. *)
Definition exceeds (x y : float) : bool := (0 <? x - y)%float.

(** The numbers [l] are ordered by [exceeds], as a comparator has to order
    what it sorts: of two numbers at most one exceeds the other, and when
    [y] does not exceed [x] and [z] does not exceed [y], [z] does not
    exceed [x]. *)
Definition ordered_by_exceeds (l : list float) : Prop :=
  (forall x y, In x l -> In y l -> exceeds x y = true -> exceeds y x = false)
  /\ (forall x y z, In x l -> In y l -> In z l ->
        exceeds y x = false -> exceeds z y = false -> exceeds z x = false).

(** A name that an object built from [{}] does not inherit. *)
Definition fresh_name (k : ustring) : Prop :=
  ~ In k (map u ["constructor"; "__defineGetter__"; "__defineSetter__";
                 "hasOwnProperty"; "__lookupGetter__"; "__lookupSetter__";
                 "isPrototypeOf"; "propertyIsEnumerable"; "toString";
                 "valueOf"; "toLocaleString"; "__proto__"]).

(** A response body from which no dataset can be read. *)
Definition malformed_or_empty (JSON_parse : string -> option ParsedStatement)
  (text : option string) : Prop :=
  text = None \/ text = Some EmptyString
  \/ exists t, text = Some t /\ JSON_parse t = None.


(** A MIME type the ingestor lets through: one in which [pdf] or [image]
    occurs somewhere. *)
Definition allowed_type (t : string) : Prop :=
  JsString.includes t "pdf" = true \/ JsString.includes t "image" = true.

Definition size_limit : N := 10 * 1024 * 1024.

(** A MIME type as the browser reports it for a chosen file: the names of a
    type and a subtype, in which no comma can stand (RFC 6838). *)
Definition plain_type (t : string) : Prop := JsString.occurs "," t = false.

(** [a] is the start of [b]. *)
Definition prefix_of {A : Type} (a b : list A) : Prop :=
  exists more, b = a ++ more.

End Spec.

(** ** Sample data *)

Module Samples.
Import Types Runtime.

Definition expense (amt : float) (cat desc : string) : Transaction :=
  {| date := Unicode.u "2024-01-15"; description := Unicode.u desc;
     amount := amt; type := EXPENSE; category := Unicode.u cat |}.

Definition statement : ParsedStatement :=
  {| summary :=
       {| accountHolder := "A. Holder"; accountNumber := "1234";
          statementPeriod := "2024-01"; currency := "USD";
          totalIncome := 0; totalExpenses := 180;
          openingBalance := 500; closingBalance := 320 |};
     transactions :=
       [expense 100 "Food" "Starbucks Coffee";
        expense 50 "Food" "Amazon Purchase";
        expense 30 "Transport" "Metro"];
     insights := ["Food is the largest expense."] |}.

(** A JSON text written with ['] where JSON has its double quote. *)
Fixpoint json (s : string) : string :=
  match s with
  | EmptyString => EmptyString
  | String c s' => String (if Ascii.eqb c "'" then "034"%char else c) (json s')
  end.

(** The body of a response from which [statement] is read. *)
Definition body : string :=
  json "{'summary':{'accountHolder':'A. Holder','accountNumber':'1234','statementPeriod':'2024-01','currency':'USD','totalIncome':0,'totalExpenses':180,'openingBalance':500,'closingBalance':320},'transactions':[{'date':'2024-01-15','description':'Starbucks Coffee','amount':100,'type':'EXPENSE','category':'Food'},{'date':'2024-01-15','description':'Amazon Purchase','amount':50,'type':'EXPENSE','category':'Food'},{'date':'2024-01-15','description':'Metro','amount':30,'type':'EXPENSE','category':'Transport'}],'insights':['Food is the largest expense.']}".

(** A [JSON.parse] that reads [body] and finds every other text malformed. *)
Definition parse (t : string) : option ParsedStatement :=
  if String.eqb t body then Some statement else None.

(** The dashboard as the controller reaches it from a fresh page. *)
Definition dashboard : App.Model * Gemini.World :=
  App.handleFileProcess parse (Some "QUJD") "image/png"
    (Resolved (Some body)) (App.initial, Gemini.loaded).

(** The page after an upload, a reset, a second upload, the response to
    the first with [body] and an empty response to the second. *)
Definition stale : App.Model * Gemini.World :=
  App.handleFileProcess_settle parse (Some "QUJD") "image/png" (Resolved None)
    (App.handleFileProcess_settle parse (Some "QUJD") "image/png"
       (Resolved (Some body))
       (App.handleFileProcess_start
          (App.resetApp (App.handleFileProcess_start App.initial)),
        Gemini.loaded)).

(** The environment of that dashboard: the session bound to [statement]. *)
Definition world : Gemini.World := snd dashboard.

(** A chat just mounted over that environment, with a question typed and
    sent and its answer not yet there. *)
Definition waiting : ChatInterface.Conversation :=
  {| ChatInterface.ui :=
       fst (ChatInterface.handleSend_call None 1700000000000
              (ChatInterface.setInput "What is my biggest expense category?"
                 (ChatInterface.mounted "Namaste!" 1699999990000)));
     ChatInterface.world := world;
     ChatInterface.inflight := ["What is my biggest expense category?"] |}.

(** That chat once the answer has arrived. *)
Definition answered : ChatInterface.Conversation :=
  match ChatInterface.step
          (ChatInterface.Settle (Resolved (Some "Food, with 150 USD."))
             1700000002000) waiting with
  | Some c => c
  | None => waiting
  end.

(** What the user does to the waiting chat to ask a second question before
    the first is answered: to the dashboard tab and back, then type and
    send. *)
Definition impatient : list ChatInterface.HostEvent :=
  [ChatInterface.Remount 1700000001000;
   ChatInterface.InChat
     (ChatInterface.Typed "Roast my spending habits in a funny way.");
   ChatInterface.InChat (ChatInterface.Send None 1700000001500)].

(** The chat after these events, if each of them can occur. *)
Definition overlapping : option ChatInterface.Hosted :=
  fold_left
    (fun h e => match h with
                | Some h' => ChatInterface.hostedStep "Namaste!" e h'
                | None => None
                end)
    impatient
    (Some {| ChatInterface.current := waiting; ChatInterface.orphans := [] |}).



Definition png (bytes : list byte) : FileUpload.File :=
  {| FileUpload.name := "statement.png"; FileUpload.type := "image/png";
     FileUpload.size := N.of_nat (length bytes);
     FileUpload.contents := bytes |}.


(** The case data of the Unicode Character Database for the letters of the
    blocks Basic Latin and Latin-1 Supplement, the Greek letters alpha to
    omega, and the case-ignorable characters up to the combining marks; no
    other character occurs in the samples. *)
Definition caseData : Unicode.CaseData :=
  {| Unicode.lowerTable := fun c =>
       if ((0xC0 <=? c) && (c <=? 0xDE) && negb (c =? 0xD7)
           || (0x391 <=? c) && (c <=? 0x3A9) && negb (c =? 0x3A2))%N
       then (c + 32)%N else c;
     Unicode.cased := fun c =>
       ((65 <=? c) && (c <=? 90) || (97 <=? c) && (c <=? 122)
        || (c =? 0xAA) || (c =? 0xB5) || (c =? 0xBA)
        || (0xC0 <=? c) && (c <=? 0xFF) && negb (c =? 0xD7) && negb (c =? 0xF7)
        || (0x391 <=? c) && (c <=? 0x3A9) && negb (c =? 0x3A2)
        || (0x3B1 <=? c) && (c <=? 0x3C9))%N;
     Unicode.caseIgnorable := fun c =>
       ((c =? 0x27) || (c =? 0x2E) || (c =? 0x3A) || (c =? 0x5E)
        || (c =? 0x60) || (c =? 0xA8) || (c =? 0xAD) || (c =? 0xAF)
        || (c =? 0xB4) || (c =? 0xB7) || (c =? 0xB8)
        || (0x300 <=? c) && (c <=? 0x36F))%N |}.

(** A purchase described in Greek capitals: alpha, sigma, pi, rho,
    omicron. *)
Definition greek : Transaction :=
  {| date := Unicode.u "2024-01-16";
     description := [0x391; 0x3A3; 0x3A0; 0x3A1; 0x39F]%N;
     amount := 12; type := EXPENSE; category := Unicode.u "Home" |}.

(** An expense filed under the name of a member of every object. *)
Definition inheritedName (cat : string) : Transaction :=
  expense 10 cat "Gift".

End Samples.

(** ** Proof steps shared below *)

(** Goals on [N] with division and remainder by constants. *)
Ltac euclid := zify; Z.to_euclidean_division_equations; lia.

(** * Properties *)

(** ** The conversation session ([sendMessageToAssistant]) *)

Section SessionFacts.
Import Types Runtime Gemini.

Lemma or_else_default (text : option string) (d : string) :
  text = None \/ text = Some EmptyString -> or_else text d = d.
Proof. intros [-> | ->]; reflexivity. Qed.

Lemma send_with_session (w : World) (session : Chat) (message : string)
  (result : Settled (option string)) :
  chatSession w = Some session ->
  exists reply session',
    fst (sendMessageToAssistant message result w) = inr reply
    /\ chatSession (snd (sendMessageToAssistant message result w)) = Some session'
    /\ systemInstruction session' = systemInstruction session.
Proof.
  intros Hs. unfold sendMessageToAssistant. rewrite Hs.
  destruct result as [e | text]; cbn.
  - exists "Sorry, I encountered an error analyzing that request.", session.
    auto.
  - exists (or_else text "I couldn't generate a response."),
      (recordTurn session message text). auto.
Qed.

Lemma send_not_initialized (w : World) (message : string)
  (result : Settled (option string)) :
  fst (sendMessageToAssistant message result w)
    = inl (Error "Chat session not initialized")
  <-> chatSession w = None.
Proof.
  unfold sendMessageToAssistant.
  destruct (chatSession w) as [session |]; split; intros H; try reflexivity.
  - destruct result; discriminate H.
  - discriminate H.
Qed.

(** C9. On an initialized session, a reply that settles without text, or
    with the empty text, makes [send] return the fixed string
    "I couldn't generate a response.". *)
Theorem send_empty_reply_default (w : World) (session : Chat)
  (message : string) (text : option string) :
  chatSession w = Some session ->
  text = None \/ text = Some EmptyString ->
  fst (sendMessageToAssistant message (Resolved text) w)
    = inr "I couldn't generate a response.".
Proof.
  intros Hs Ht. unfold sendMessageToAssistant. rewrite Hs. cbn.
  now rewrite (or_else_default _ _ Ht).
Qed.

(** C6. On an initialized session, a request that fails is answered with the
    fixed fallback string instead of an exception, the cause is written to
    the console, and the session stays in place: every later [send] returns
    a reply as well. *)
Theorem send_failure_absorbed (w : World) (session : Chat)
  (message : string) (cause : Exn) :
  chatSession w = Some session ->
  let r := sendMessageToAssistant message (Rejected cause) w in
  fst r = inr "Sorry, I encountered an error analyzing that request."
  /\ console (snd r)
     = console w ++ [{| label := Some "Chat error:"; thrown := cause |}]
  /\ chatSession (snd r) = Some session
  /\ forall message' result', exists reply,
       fst (sendMessageToAssistant message' result' (snd r)) = inr reply.
Proof.
  intros Hs r.
  assert (Hr : r = (inr "Sorry, I encountered an error analyzing that request.",
                    log (Some "Chat error:") cause w)).
  { subst r. unfold sendMessageToAssistant. now rewrite Hs. }
  rewrite Hr. cbn [fst snd]. repeat split; try assumption.
  intros message' result'.
  destruct (send_with_session (log (Some "Chat error:") cause w) session
              message' result' Hs) as (reply & session' & Hreply & _).
  now exists reply.
Qed.

End SessionFacts.

(** ** The application state controller ([handleFileProcess], [resetApp]) *)

Section ControllerFacts.
Import Types Runtime Gemini App.

Variable JSON_parse : string -> option ParsedStatement.

Lemma extract_body_failure (text : option string) :
  Spec.malformed_or_empty JSON_parse text ->
  exists e, extract_body JSON_parse (Resolved text) = inl e.
Proof.
  intros [-> | [-> | (t & -> & Hp)]]; cbn.
  - eauto.
  - eauto.
  - destruct (JsString.truthy t); cbn; [rewrite Hp |]; eauto.
Qed.

Lemma handleFileProcess_failure base64 mimeType response m w e :
  extract_body JSON_parse response = inl e ->
  handleFileProcess JSON_parse base64 mimeType response (m, w)
  = (setAppState ERROR (setAppState ANALYZING m),
     log None e (log (Some "Extraction error:") e w)).
Proof.
  intros He. unfold handleFileProcess, handleFileProcess_settle,
    handleFileProcess_start, extractFinancialData. cbn [fst snd].
  now rewrite He.
Qed.

Lemma handleFileProcess_success base64 mimeType response m w d :
  extract_body JSON_parse response = inr d ->
  handleFileProcess JSON_parse base64 mimeType response (m, w)
  = (setAppState DASHBOARD (setData (Some d) (setAppState ANALYZING m)),
     initializeChat d w).
Proof.
  intros He. unfold handleFileProcess, handleFileProcess_settle,
    handleFileProcess_start, extractFinancialData. cbn [fst snd].
  now rewrite He.
Qed.

Lemma step_consistent e st st' :
  consistent st -> step JSON_parse e st = Some st' -> consistent st'.
Proof.
  destruct st as [m w]. unfold consistent. cbn [fst snd].
  intros (Hidle & Hdash & Hbound) Hstep.
  destruct e as [| base64 mimeType response | | t | message result];
    cbn [step] in Hstep.
  - destruct (appState m) eqn:Hm; try discriminate Hstep.
    injection Hstep as <-. cbn.
    split; [discriminate | split; [discriminate | exact Hbound]].
  - injection Hstep as <-.
    unfold handleFileProcess_settle, extractFinancialData.
    destruct (extract_body JSON_parse response) as [e | d]; cbn.
    + split; [discriminate | split; [discriminate | exact Hbound]].
    + split; [discriminate | split; [discriminate |]].
      intros d' Hd'. injection Hd' as <-. eexists. split; reflexivity.
  - destruct (appState m); try discriminate Hstep;
      injection Hstep as <-; cbn;
      (split; [intros _; now split | split; [discriminate | discriminate]]).
  - destruct (appState m) eqn:Hm; try discriminate Hstep.
    injection Hstep as <-. cbn. rewrite Hm.
    split; [discriminate | split; [intros _; now apply Hdash | exact Hbound]].
  - destruct (appState m) eqn:Hm; try discriminate Hstep.
    destruct (data m) eqn:Hd; try discriminate Hstep.
    destruct (activeTab m); try discriminate Hstep.
    injection Hstep as <-. cbn [fst snd]. rewrite Hm, Hd.
    split; [discriminate | split; [discriminate |]].
    intros d Heq. destruct (Hbound d Heq) as (session & Hsession & Hcontext).
    destruct (send_with_session w session message result Hsession)
      as (reply & session' & _ & Hs' & Hi).
    exists session'. split; [exact Hs' | now rewrite Hi].
Qed.

Lemma reachable_consistent st : reachable JSON_parse st -> consistent st.
Proof.
  intros [n Hrun].
  induction Hrun as [| e n n' st st' _ IH _ Hstep].
  - unfold consistent. cbn. split; [now split | split; discriminate].
  - exact (step_consistent e st st' IH Hstep).
Qed.

(** The upload is offered where no dataset is stored. *)
Lemma idle_has_no_dataset st :
  reachable JSON_parse st -> appState (fst st) = IDLE -> data (fst st) = None.
Proof.
  intros Hr Hi. apply reachable_consistent in Hr.
  destruct Hr as (Hidle & _). now apply Hidle.
Qed.

(** C2. An extraction whose response body is empty or malformed ends in an
    error that [extractFinancialData] hands to its caller, never in a
    dataset; [handleFileProcess] then logs it, moves to the error state and
    stores nothing: the dataset it held before is the one it holds after, so
    it is still null where it was null, as in every idle state the
    controller reaches, and no session is created. *)
Theorem extraction_failure_propagates (base64 : option string)
  (mimeType : string) (text : option string) (m : Model) (w : World) :
  Spec.malformed_or_empty JSON_parse text ->
  exists e,
    extractFinancialData JSON_parse base64 mimeType (Resolved text) w
      = (inl e, log (Some "Extraction error:") e w)
    /\ let st' := handleFileProcess JSON_parse base64 mimeType
                    (Resolved text) (m, w) in
       appState (fst st') = ERROR
       /\ data (fst st') = data m
       /\ (data m = None -> data (fst st') = None)
       /\ (reachable JSON_parse (m, w) -> appState m = IDLE ->
           data (fst st') = None)
       /\ chatSession (snd st') = chatSession w
       /\ console (snd st')
          = console w ++ [{| label := Some "Extraction error:"; thrown := e |};
                          {| label := None; thrown := e |}].
Proof.
  intros Hbad. destruct (extract_body_failure text Hbad) as [e He].
  exists e. split.
  - unfold extractFinancialData. now rewrite He.
  - cbv zeta. rewrite (handleFileProcess_failure _ _ _ _ _ _ He).
    cbn. unfold console_error. rewrite <- app_assoc. repeat split; auto.
    intros Hr Hi. exact (idle_has_no_dataset (m, w) Hr Hi).
Qed.

(** C1, as the code has it. A reset from a dashboard the controller has
    reached leaves the idle state with no dataset and the dashboard tab
    selected; the module's session is not touched, so the session created
    for the dataset just cleared is still there and every later [send] is
    answered through it. The session-not-initialized error is raised
    exactly when no session was ever created. *)
Theorem reset_leaves_session (st : Model * World) (d : ParsedStatement) :
  reachable JSON_parse st ->
  appState (fst st) = DASHBOARD ->
  data (fst st) = Some d ->
  step JSON_parse NewUpload st = Some (resetApp (fst st), snd st)
  /\ appState (resetApp (fst st)) = IDLE
  /\ data (resetApp (fst st)) = None
  /\ activeTab (resetApp (fst st)) = dashboardTab
  /\ (exists session,
        chatSession (snd st) = Some session
        /\ dataContext (systemInstruction session) = d)
  /\ (forall message result, exists reply,
        fst (sendMessageToAssistant message result (snd st)) = inr reply)
  /\ (forall w message result,
        fst (sendMessageToAssistant message result w)
          = inl (Error "Chat session not initialized")
        <-> chatSession w = None).
Proof.
  intros Hr Hs Hd. pose proof (reachable_consistent st Hr) as Hc.
  destruct Hc as (_ & _ & Hbound).
  destruct (Hbound d Hd) as (session & Hsession & Hcontext).
  destruct st as [m w]. cbn [fst snd] in *.
  repeat split.
  - cbn. now rewrite Hs.
  - now exists session.
  - intros message result.
    destruct (send_with_session w session message result Hsession)
      as (reply & _ & Hreply & _).
    now exists reply.
  - apply send_not_initialized.
  - apply send_not_initialized.
Qed.

End ControllerFacts.

(** C1, as stated, fails on the sample dashboard: after the reset the state
    is idle and the dataset is null, yet a [send] is answered by the session
    of the cleared dataset instead of failing. *)
Lemma reset_then_send_is_answered :
  let after := (App.resetApp (fst Samples.dashboard), snd Samples.dashboard) in
  App.appState (fst Samples.dashboard) = Types.DASHBOARD
  /\ App.data (fst Samples.dashboard) = Some Samples.statement
  /\ App.step Samples.parse App.NewUpload Samples.dashboard = Some after
  /\ App.appState (fst after) = Types.IDLE
  /\ App.data (fst after) = None
  /\ fst (Gemini.sendMessageToAssistant "How much did I spend?"
            (Runtime.Resolved (Some "You spent 180 USD.")) (snd after))
     = inr "You spent 180 USD."
  /\ fst (Gemini.sendMessageToAssistant "How much did I spend?"
            (Runtime.Resolved (Some "You spent 180 USD.")) (snd after))
     <> inl (Runtime.Error "Chat session not initialized").
Proof.
  cbv zeta. repeat split; try reflexivity.
  vm_compute. discriminate.
Qed.

(** ** File validation ([handleFileChange]) *)

Section ValidationFacts.
Import FileUpload.




End ValidationFacts.


(** ** The speak handler ([handleSpeak]) *)

Section SpeakFacts.
Import ChatInterface.

Lemma removeAll_Stripped (cls : ascii -> bool) (s : string) :
  Spec.Stripped cls s (JsString.removeAll cls s).
Proof.
  induction s as [| c s IH]; cbn.
  - constructor.
  - destruct (cls c) eqn:Hc; now constructor.
Qed.

Lemma Stripped_unique (cls : ascii -> bool) (s r : string) :
  Spec.Stripped cls s r -> r = JsString.removeAll cls s.
Proof.
  induction 1 as [| c s r Hc _ IH | c s r Hc _ IH]; cbn.
  - reflexivity.
  - now rewrite Hc.
  - now rewrite Hc, IH.
Qed.

Lemma removeAll_clean (cls : ascii -> bool) (c : ascii) (s : string) :
  cls c = true -> JsString.occurs c (JsString.removeAll cls s) = false.
Proof.
  intros Hc. induction s as [| d s IH]; cbn.
  - reflexivity.
  - destruct (cls d) eqn:Hd.
    + exact IH.
    + cbn. rewrite IH, orb_false_r. apply Ascii.eqb_neq. congruence.
Qed.

(** C5. Whatever text the speak handler is given, the request it transmits
    carries that text with every [*], [#], [_] and backtick taken out and
    every other character kept; no request at all is sent only when the
    click stops the message that is playing. For the text
    [**Hello** `world`] the transmitted text is [Hello world]. *)
Theorem speak_strips_emphasis (msgId text : string) (s : State) :
  match snd (handleSpeak_call msgId text s) with
  | Some request =>
      is_active s msgId = false
      /\ Spec.Stripped emphasis text (Gemini.tts_text request)
      /\ (forall c, In c ["*"; "#"; "_"; "`"]%char ->
                    JsString.occurs c (Gemini.tts_text request) = false)
  | None => is_active s msgId = true
  end
  /\ (is_active s msgId = false ->
      option_map Gemini.tts_text
        (snd (handleSpeak_call msgId "**Hello** `world`" s))
      = Some "Hello world").
Proof.
  unfold handleSpeak_call. destruct (is_active s msgId) eqn:Ha; cbn.
  - split; [reflexivity | discriminate].
  - repeat split.
    + apply removeAll_Stripped.
    + intros c Hc. apply removeAll_clean.
      cbn in Hc. decompose [or] Hc; subst; try reflexivity. contradiction.
Qed.

End SpeakFacts.

(** ** The chat turn handler ([handleSend]) *)

Section TurnFacts.
Import Types Runtime ChatInterface.

Lemma handleSend_call_guarded (textOverride : option string) (now : N)
  (s : State) :
  isTyping s = true \/ JsString.trim (textToSend textOverride s) = EmptyString ->
  handleSend_call textOverride now s = (s, None).
Proof.
  intros H. unfold handleSend_call.
  destruct H as [H | H]; rewrite H.
  - now rewrite orb_true_r.
  - reflexivity.
Qed.

Lemma handleSend_call_sent (textOverride : option string) (now : N)
  (s s' : State) (m : string) :
  handleSend_call textOverride now s = (s', Some m) ->
  isTyping s = false
  /\ JsString.trim m <> EmptyString
  /\ m = textToSend textOverride s
  /\ isTyping s' = true
  /\ messages s'
     = messages s ++ [{| id := toString now; role := user; text := m;
                         timestamp := now |}].
Proof.
  unfold handleSend_call.
  destruct (JsString.trim (textToSend textOverride s)) eqn:Ht; cbn.
  - discriminate.
  - destruct (isTyping s); [discriminate |].
    intros H. injection H as <- <-. rewrite Ht.
    repeat split. discriminate.
Qed.

Lemma handleSend_settle_appends (now : N) (answer : Exn + string)
  (s : State) (w : Gemini.World) :
  exists reply,
    role reply = model
    /\ messages (fst (handleSend_settle now answer (s, w)))
       = messages s ++ [reply]
    /\ isTyping (fst (handleSend_settle now answer (s, w))) = false.
Proof.
  destruct answer as [e | t]; cbn; eexists; repeat split; reflexivity.
Qed.

Lemma step_serialized (e : Event) (c c' : Conversation) :
  serialized c -> step e c = Some c' -> serialized c'.
Proof.
  intros (Hlen & Htyping & Hlast & n & Hroles) Hstep.
  destruct c as [s w pending]. cbn [ui world inflight] in *.
  destruct e as [v | transcript | textOverride now | result now];
    cbn [step ui world inflight] in Hstep.
  - injection Hstep as <-. unfold serialized. cbn.
    repeat split; try apply Htyping; eauto.
  - injection Hstep as <-. unfold serialized. cbn.
    repeat split; try apply Htyping; eauto.
  - destruct (handleSend_call textOverride now s) as [s' call] eqn:Hcall.
    injection Hstep as <-. destruct call as [m |].
    + apply handleSend_call_sent in Hcall.
      destruct Hcall as (Hidle & _ & _ & Hbusy & Hmsgs).
      assert (pending = []) as ->.
      { destruct pending as [| p ps]; [reflexivity |].
        assert (isTyping s = true) by (apply Htyping; discriminate).
        congruence. }
      unfold serialized. cbn [ui world inflight app length].
      repeat split; auto.
      * discriminate.
      * intros m' [<- | []]. eexists _, _. split; [exact Hmsgs |].
        now split.
      * exists n. rewrite Hmsgs, map_app, Hroles. cbn.
        now rewrite !app_nil_r.
    + unfold handleSend_call in Hcall.
      destruct (negb (JsString.truthy (JsString.trim (textToSend textOverride s)))
                || isTyping s); [| discriminate].
      injection Hcall as <-. rewrite app_nil_r.
      unfold serialized. cbn. repeat split; try apply Htyping; eauto.
  - destruct pending as [| m rest]; [discriminate |].
    destruct (Gemini.sendMessageToAssistant m result w) as [answer w1].
    destruct (handleSend_settle_appends now answer s w1)
      as (reply & Hrole & Hmsgs & Hidle).
    destruct (handleSend_settle now answer (s, w1)) as [s' w'].
    cbn [fst] in Hmsgs, Hidle. injection Hstep as <-.
    assert (rest = []) as ->.
    { destruct rest; [reflexivity | cbn in Hlen; lia]. }
    unfold serialized. cbn [ui world inflight length map].
    split; [lia | split; [| split]].
    + split; intros H; [congruence | exfalso; now apply H].
    + intros m' [].
    + exists (S n). rewrite Hmsgs, map_app, Hroles. cbn [map turns].
      rewrite Hrole, app_nil_r. cbn. now rewrite <- app_assoc.
Qed.

Lemma mounted_serialized greetingText now (w : Gemini.World) :
  serialized {| ui := mounted greetingText now; world := w; inflight := [] |}.
Proof.
  unfold serialized. cbn. split; [lia | split; [| split]].
  - split; intros H; [discriminate | exfalso; now apply H].
  - intros m [].
  - now exists O.
Qed.

Lemma reachable_serialized greetingText w0 t0 (c : Conversation) :
  reachable greetingText w0 t0 c -> serialized c.
Proof.
  induction 1 as [| e c c' _ IH Hstep].
  - apply mounted_serialized.
  - exact (step_serialized e c c' IH Hstep).
Qed.

Lemma hostedStep_serialized greetingText (e : HostEvent) (h h' : Hosted) :
  serialized (current h) -> hostedStep greetingText e h = Some h' ->
  serialized (current h').
Proof.
  intros Hs Hstep. destruct e as [e' | now | result]; cbn [hostedStep] in Hstep.
  - destruct (step e' (current h)) as [c |] eqn:Hc; [| discriminate Hstep].
    injection Hstep as <-. exact (step_serialized e' _ _ Hs Hc).
  - injection Hstep as <-. apply mounted_serialized.
  - destruct (orphans h) as [| m rest]; [discriminate Hstep |].
    destruct (Gemini.sendMessageToAssistant m result (world (current h)))
      as [answer w].
    injection Hstep as <-. exact Hs.
Qed.

Lemma hosted_serialized greetingText w0 t0 (h : Hosted) :
  hosted greetingText w0 t0 h -> serialized (current h).
Proof.
  induction 1 as [| e h h' _ IH Hstep].
  - apply mounted_serialized.
  - exact (hostedStep_serialized greetingText e h h' IH Hstep).
Qed.

(** The events of a list, one after the other. *)
Lemma hosted_events greetingText w0 t0 (events : list HostEvent) (h h' : Hosted) :
  hosted greetingText w0 t0 h ->
  fold_left (fun s e => match s with
                        | Some x => hostedStep greetingText e x
                        | None => None
                        end) events (Some h) = Some h' ->
  hosted greetingText w0 t0 h'.
Proof.
  revert h. induction events as [| e events IH]; intros h Hh; cbn [fold_left].
  - intros H. injection H as <-. exact Hh.
  - destruct (hostedStep greetingText e h) as [x |] eqn:Hx.
    + apply IH. exact (hosted_step _ _ _ e h x Hh Hx).
    + intros H. exfalso. clear - H. induction events; cbn in H; [discriminate | auto].
Qed.

(** The chat of the samples that waits for its first answer. *)
Lemma hosted_waiting :
  hosted "Namaste!" Samples.world 1699999990000
    {| current := Samples.waiting; orphans := [] |}.
Proof.
  apply (hosted_events "Namaste!" Samples.world 1699999990000
           [InChat (Typed "What is my biggest expense category?");
            InChat (Send None 1700000000000)]
           {| current := {| ui := mounted "Namaste!" 1699999990000;
                            world := Samples.world; inflight := [] |};
              orphans := [] |}).
  - apply hosted_mounted.
  - reflexivity.
Qed.

(** C10, as the code has it. While the typing flag is set, or when the text
    to send is empty or white space only, the send handler changes nothing
    and calls nothing. A call it does make starts from a component with no
    request of its own in flight, so in every state of the chat, tab
    switches included, the component that is mounted has at most one
    request in flight and its transcript is the greeting, then user message
    and answer in turn, then the user message still waiting for its answer.
    Requests of components a tab switch has discarded are not counted: only
    while there is none is at most one request pending in all. *)
Theorem send_is_serialized (greetingText : string) (w0 : Gemini.World)
  (t0 : N) (h : Hosted) (textOverride : option string) (now : N) :
  hosted greetingText w0 t0 h ->
  serialized (current h)
  /\ (isTyping (ui (current h)) = true
      \/ JsString.trim (textToSend textOverride (ui (current h))) = EmptyString ->
      handleSend_call textOverride now (ui (current h)) = (ui (current h), None)
      /\ hostedStep greetingText (InChat (Send textOverride now)) h = Some h)
  /\ (forall s' m,
        handleSend_call textOverride now (ui (current h)) = (s', Some m) ->
        inflight (current h) = []
        /\ hostedStep greetingText (InChat (Send textOverride now)) h
           = Some {| current := {| ui := s'; world := world (current h);
                                   inflight := [m] |};
                     orphans := orphans h |})
  /\ (length (pending h) <= length (orphans h) + 1)%nat
  /\ (orphans h = [] -> (length (pending h) <= 1)%nat).
Proof.
  intros Hr. pose proof (hosted_serialized _ _ _ h Hr) as Hs.
  destruct h as [c orphaned]. cbn [current orphans] in *.
  split; [exact Hs | split; [| split; [| split]]].
  - intros Hguard.
    pose proof (handleSend_call_guarded textOverride now (ui c) Hguard) as Hc.
    split; [exact Hc |]. cbn [hostedStep step current orphans].
    rewrite Hc, app_nil_r. now destruct c.
  - intros s' m Hcall. destruct Hs as (_ & Htyping & _).
    pose proof (handleSend_call_sent _ _ _ _ _ Hcall) as (Hidle & _).
    assert (Hnone : inflight c = []).
    { destruct (inflight c) as [| p ps] eqn:Hp; [reflexivity |].
      assert (isTyping (ui c) = true) by (apply Htyping; discriminate).
      congruence. }
    split; [exact Hnone |]. cbn [hostedStep step current orphans].
    now rewrite Hcall, Hnone.
  - destruct Hs as (Hone & _). unfold pending. cbn [current orphans].
    rewrite length_app. lia.
  - intros ->. destruct Hs as (Hone & _). exact Hone.
Qed.

End TurnFacts.

(** C10, as stated, fails on the sample chat: while the first question
    waits for its answer the user switches to the dashboard tab and back,
    which mounts a chat whose typing flag is clear, and sends a second
    question; both requests are then pending on the same session. *)
Lemma remount_lets_requests_overlap :
  ChatInterface.hosted "Namaste!" Samples.world 1699999990000
    {| ChatInterface.current := Samples.waiting; ChatInterface.orphans := [] |}
  /\ ChatInterface.isTyping (ChatInterface.ui Samples.waiting) = true
  /\ exists h,
       Samples.overlapping = Some h
       /\ ChatInterface.hosted "Namaste!" Samples.world 1699999990000 h
       /\ ChatInterface.pending h
          = ["What is my biggest expense category?";
             "Roast my spending habits in a funny way."]
       /\ ChatInterface.world (ChatInterface.current h) = Samples.world.
Proof.
  split; [exact hosted_waiting | split; [reflexivity |]].
  eexists. split; [vm_compute; reflexivity | split; [| split; reflexivity]].
  apply (hosted_events "Namaste!" Samples.world 1699999990000
           Samples.impatient
           {| ChatInterface.current := Samples.waiting;
              ChatInterface.orphans := [] |});
    [exact hosted_waiting | vm_compute; reflexivity].
Qed.

(** ** Texts: equality, substrings and lower case *)

Section TextFacts.
Import Unicode.

Lemma ustring_eqb_spec (a b : ustring) : reflect (a = b) (Unicode.eqb a b).
Proof.
  revert b. induction a as [| x a IH]; intros [| y b]; cbn;
    try (constructor; congruence).
  destruct (N.eqb_spec x y) as [-> | Hxy]; cbn.
  - destruct (IH b) as [-> | Hab]; constructor; congruence.
  - constructor. congruence.
Qed.

Lemma ustring_eqb_refl (a : ustring) : Unicode.eqb a a = true.
Proof. now destruct (ustring_eqb_spec a a). Qed.

Lemma startsWith_spec (s p : ustring) :
  startsWith s p = true <-> exists r, s = p ++ r.
Proof.
  revert s. induction p as [| a p IH]; intros s; cbn.
  - split; [intros _; now exists s | intros _; now destruct s].
  - destruct s as [| b s]; cbn.
    + split; [discriminate | intros [r Hr]; discriminate Hr].
    + rewrite andb_true_iff, IH. split.
      * intros [Hab [r ->]]. apply N.eqb_eq in Hab. subst. now exists r.
      * intros [r Hr]. injection Hr as -> ->.
        split; [apply N.eqb_refl | now exists r].
Qed.

Lemma includes_spec (s sub : ustring) :
  includes s sub = true <-> exists before after, s = before ++ sub ++ after.
Proof.
  induction s as [| c s IH]; cbn [includes].
  - rewrite orb_false_r, startsWith_spec. split.
    + intros [r Hr]. now exists [], r.
    + intros (before & after & H).
      destruct before; [now exists after | discriminate H].
  - rewrite orb_true_iff, startsWith_spec, IH. split.
    + intros [[r Hr] | (before & after & ->)].
      * now exists [], r.
      * now exists (c :: before), after.
    + intros (before & after & H). destruct before as [| b before]; cbn in H.
      * left. now exists after.
      * injection H as -> ->. right. now exists before, after.
Qed.

Lemma includes_empty (s : ustring) : includes s [] = true.
Proof. destruct s; reflexivity. Qed.

Lemma includes_trans (a b c : ustring) :
  includes a b = true -> includes b c = true -> includes a c = true.
Proof.
  rewrite !includes_spec. intros (p & q & ->) (p' & q' & ->).
  exists (p ++ p'), (q' ++ q). now rewrite <- !app_assoc.
Qed.

Lemma codePoints_plain (s : ustring) :
  Forall (fun c => is_high_surrogate c = false) s -> codePoints s = s.
Proof.
  induction 1 as [| c s Hc _ IH]; [reflexivity |].
  destruct s as [| l rest]; [reflexivity |].
  change (codePoints (c :: l :: rest))
    with (if is_high_surrogate c && is_low_surrogate l
          then (0x10000 + (c - 0xD800) * 1024 + (l - 0xDC00))%N
               :: codePoints rest
          else c :: codePoints (l :: rest)).
  now rewrite Hc, IH.
Qed.

Variable data : CaseData.

Lemma lowerFrom_plain (before s : list N) :
  Forall (fun c => c <> capital_sigma /\ c <> capital_dotted_i) s ->
  lowerFrom data before s = map (lowerChar data) s.
Proof.
  intros Hs. revert before.
  induction Hs as [| c s [Hsigma Hdot] _ IH]; intros before; cbn [lowerFrom map].
  - reflexivity.
  - destruct (N.eqb_spec c capital_sigma); [contradiction |].
    destruct (N.eqb_spec c capital_dotted_i); [contradiction |].
    cbn. now rewrite IH.
Qed.

Lemma lowerChar_within_plane (c : N) :
  Spec.within_plane data -> (c < 0x10000)%N -> (lowerChar data c < 0x10000)%N.
Proof.
  intros Hdata Hc. unfold lowerChar.
  destruct (N.ltb_spec c 128) as [Hlow | _]; [| now apply Hdata].
  destruct ((65 <=? c) && (c <=? 90))%N; lia.
Qed.

Lemma codeUnits_within_plane (s : list N) :
  Forall (fun c => (c < 0x10000)%N) s -> flat_map codeUnits s = s.
Proof.
  induction 1 as [| c s Hc _ IH]; cbn [flat_map]; [reflexivity |].
  rewrite IH. unfold codeUnits. apply N.ltb_lt in Hc. now rewrite Hc.
Qed.

(** On a plain text the lower-case form is taken letter by letter. *)
Lemma toLowerCase_plain (s : ustring) :
  Spec.within_plane data -> Spec.plain s ->
  toLowerCase data s = map (lowerChar data) s.
Proof.
  intros Hdata Hs. unfold toLowerCase.
  rewrite codePoints_plain.
  2: { eapply Forall_impl; [| exact Hs]. intros c Hc. apply Hc. }
  rewrite lowerFrom_plain.
  2: { eapply Forall_impl; [| exact Hs]. intros c Hc. split; apply Hc. }
  apply codeUnits_within_plane. apply Forall_map.
  eapply Forall_impl; [| exact Hs]. intros c Hc.
  apply lowerChar_within_plane; [exact Hdata | apply Hc].
Qed.

Lemma same_ignoring_case_lower (a b : ustring) :
  Spec.same_ignoring_case data a b
  <-> map (lowerChar data) a = map (lowerChar data) b.
Proof.
  unfold Spec.same_ignoring_case, Spec.same_letter. split.
  - induction 1 as [| c d s t Hcd _ IH]; cbn; [reflexivity | now rewrite Hcd, IH].
  - revert b. induction a as [| c a IH]; intros [| d b] H; cbn in H;
      try discriminate H.
    + constructor.
    + injection H as Hcd Hab. constructor; auto.
Qed.

Lemma includes_ignoring_case (s term : ustring) :
  Spec.within_plane data -> Spec.plain s -> Spec.plain term ->
  (includes (toLowerCase data s) (toLowerCase data term) = true
   <-> Spec.contains_ignoring_case data s term).
Proof.
  intros Hdata Hs Hterm. rewrite !toLowerCase_plain by assumption.
  rewrite includes_spec. unfold Spec.contains_ignoring_case. split.
  - intros (before & after & H).
    apply map_eq_app in H. destruct H as (s1 & rest & -> & <- & H).
    apply map_eq_app in H. destruct H as (found & s3 & -> & Hf & <-).
    exists s1, found, s3. split; [reflexivity |].
    now apply same_ignoring_case_lower.
  - intros (before & found & after & -> & Hsame).
    apply same_ignoring_case_lower in Hsame.
    exists (map (lowerChar data) before), (map (lowerChar data) after).
    now rewrite !map_app, Hsame.
Qed.

End TextFacts.

(** ** The search filter ([filteredTransactions]) *)

Section SearchFacts.
Import Types Unicode Dashboard.

Variable data : CaseData.

Lemma search_match_lowered (term : ustring) (t : Transaction) :
  search_match data term t = true <-> Spec.matches_in_lower_case data term t.
Proof.
  unfold search_match, Spec.matches_in_lower_case, Spec.occurs_in.
  now rewrite orb_true_iff, !includes_spec.
Qed.

Lemma search_match_spec (term : ustring) (t : Transaction) :
  Spec.within_plane data -> Spec.plain term ->
  Spec.plain (description t) -> Spec.plain (category t) ->
  (search_match data term t = true <-> Spec.matches data term t).
Proof.
  intros Hdata Hterm Hd Hc. unfold search_match, Spec.matches.
  now rewrite orb_true_iff, !includes_ignoring_case.
Qed.

Lemma filter_Exactly {A : Type} (f : A -> bool) (P : A -> Prop) (l : list A) :
  Forall (fun x => f x = true <-> P x) l -> Spec.Exactly P l (filter f l).
Proof.
  induction 1 as [| x l Hf _ IH]; cbn.
  - constructor.
  - destruct (f x) eqn:Hx.
    + apply Spec.Exactly_take; [now apply Hf | exact IH].
    + apply Spec.Exactly_skip; [| exact IH].
      intros HP. apply Hf in HP. congruence.
Qed.

Lemma plain_literal (s : ustring) :
  forallb (fun c => (c <? 0x10000)%N && negb (is_high_surrogate c)
                    && negb (is_low_surrogate c)
                    && negb (c =? capital_sigma)%N
                    && negb (c =? capital_dotted_i)%N) s = true ->
  Spec.plain s.
Proof.
  intros H. apply Forall_forall. intros c Hc.
  rewrite forallb_forall in H. specialize (H c Hc).
  rewrite !andb_true_iff, !negb_true_iff in H.
  destruct H as ((((H1 & H2) & H3) & H4) & H5).
  apply N.ltb_lt in H1. apply N.eqb_neq in H4. apply N.eqb_neq in H5.
  repeat split; assumption.
Qed.

(** C8, as the code has it. The filter returns exactly the transactions for
    which the lower-case form of the term, as [toLowerCase] gives it, occurs
    in the lower-case form of the description or of the category: each of
    them as often and in the order the list has it, and no other. When
    term, descriptions and categories are made of plain characters (any
    character of the Basic Multilingual Plane but the capital sigma and the
    capital I with a dot), these are exactly the transactions whose
    description or category contains the term as a substring, letter case
    ignored. For two transactions described as "Starbucks Coffee" and
    "Amazon Purchase" (the category of the second not holding the term) and
    the term "coffee" in any letter case, it returns the first transaction
    alone. *)
Theorem search_filter_exact (term : ustring) (txs : list Transaction) :
  Spec.Exactly (Spec.matches_in_lower_case data term) txs
    (filteredTransactions data term txs)
  /\ (Spec.within_plane data ->
      Spec.plain term ->
      Forall (fun t => Spec.plain (description t) /\ Spec.plain (category t))
             txs ->
      Spec.Exactly (Spec.matches data term) txs
        (filteredTransactions data term txs))
  /\ (Spec.within_plane data ->
      Spec.plain term ->
      forall t1 t2,
        Spec.same_ignoring_case data term (u "coffee") ->
        description t1 = u "Starbucks Coffee" ->
        description t2 = u "Amazon Purchase" ->
        Spec.plain (category t2) ->
        ~ Spec.contains_ignoring_case data (category t2) (u "coffee") ->
        filteredTransactions data term [t1; t2] = [t1]).
Proof.
  split; [| split].
  - apply filter_Exactly. apply Forall_forall. intros t _.
    apply search_match_lowered.
  - intros Hdata Hplain Htxs.
    apply filter_Exactly. eapply Forall_impl; [| exact Htxs].
    intros t [Hd Hc]. now apply search_match_spec.
  - intros Hdata Hplain t1 t2 Hterm Hd1 Hd2 Hp2 Hc2.
    apply same_ignoring_case_lower in Hterm.
    assert (Hlower : toLowerCase data term = toLowerCase data (u "coffee")).
    { rewrite (toLowerCase_plain data term Hdata Hplain), Hterm. reflexivity. }
    assert (Hno : includes (toLowerCase data (category t2))
                    (toLowerCase data (u "coffee")) = false).
    { apply not_true_is_false. intros H. apply Hc2.
      apply includes_ignoring_case in H; try assumption.
      apply plain_literal. reflexivity. }
    unfold filteredTransactions, search_match. cbn [filter].
    rewrite Hlower, Hd1, Hd2, Hno. reflexivity.
Qed.

Lemma filter_filter {A : Type} (f g : A -> bool) (l : list A) :
  (forall x, g x = true -> f x = true) ->
  filter g (filter f l) = filter g l.
Proof.
  intros Himp. induction l as [| x l IH]; cbn; [reflexivity |].
  destruct (f x) eqn:Hf; cbn.
  - now rewrite IH.
  - destruct (g x) eqn:Hg; [| exact IH].
    apply Himp in Hg. congruence.
Qed.

(** Typing more of a term can only narrow the search. When the lower-case
    form of the old term occurs in the lower-case form of the new one,
    searching for the new term finds nothing the old term did not find, and
    it finds the same whether it looks through the whole list or through
    the old results. For terms of plain characters that is the case as soon
    as the old term occurs in the new one, letter case ignored. With the
    search box empty the whole list is shown. *)
Theorem search_narrows (term term' : ustring) (txs : list Transaction) :
  (Spec.occurs_in (toLowerCase data term) (toLowerCase data term') ->
   filteredTransactions data term' (filteredTransactions data term txs)
     = filteredTransactions data term' txs
   /\ (forall t, In t (filteredTransactions data term' txs) ->
                 In t (filteredTransactions data term txs)))
  /\ (Spec.within_plane data -> Spec.plain term -> Spec.plain term' ->
      Spec.contains_ignoring_case data term' term ->
      Spec.occurs_in (toLowerCase data term) (toLowerCase data term'))
  /\ filteredTransactions data [] txs = txs.
Proof.
  split; [| split].
  - intros Hsub. apply includes_spec in Hsub.
    assert (Himp : forall t, search_match data term' t = true ->
                             search_match data term t = true).
    { intros t. unfold search_match. rewrite !orb_true_iff.
      intros [H | H]; [left | right];
        exact (includes_trans _ _ _ H Hsub). }
    unfold filteredTransactions. split.
    + now apply filter_filter.
    + intros t Ht. apply filter_In in Ht. destruct Ht as [Hin Hm].
      apply filter_In. split; [exact Hin | now apply Himp].
  - intros Hdata Hterm Hterm' Hsub.
    apply includes_spec. now apply includes_ignoring_case.
  - unfold filteredTransactions.
    induction txs as [| t txs' IH]; cbn [filter]; [reflexivity |].
    unfold search_match at 1.
    change (toLowerCase data []) with (@nil N).
    now rewrite includes_empty, IH.
Qed.

End SearchFacts.

(** C8, as stated, fails on a description in Greek capitals: it begins
    with the very letters of the term, alpha and sigma, but the sigma of
    the term is its last letter and so gets another lower-case form than
    the sigma inside the description. The filter returns nothing; it finds
    the transaction again when the term goes on to the next letter. *)
Lemma final_sigma_hides_a_match :
  Spec.contains_ignoring_case Samples.caseData
    (Types.description Samples.greek) [0x391; 0x3A3]%N
  /\ Spec.matches Samples.caseData [0x391; 0x3A3]%N Samples.greek
  /\ Dashboard.filteredTransactions Samples.caseData [0x391; 0x3A3]%N
       [Samples.greek] = []
  /\ Dashboard.filteredTransactions Samples.caseData [0x391; 0x3A3; 0x3A0]%N
       [Samples.greek] = [Samples.greek].
Proof.
  assert (H : Spec.contains_ignoring_case Samples.caseData
                (Types.description Samples.greek) [0x391; 0x3A3]%N).
  { exists [], [0x391; 0x3A3]%N, [0x3A0; 0x3A1; 0x39F]%N.
    split; [reflexivity |]. repeat constructor. }
  split; [exact H | split; [now left | split; reflexivity]].
Qed.

(** ** Base64: what is encoded is read back *)

Section Base64Facts.
Import Base64.

Lemma below_64 (P : N -> bool) :
  forallb P (map N.of_nat (seq 0 64)) = true ->
  forall n, (n < 64)%N -> P n = true.
Proof.
  intros Hall n Hn. rewrite forallb_forall in Hall. apply Hall.
  rewrite <- (N2Nat.id n). apply in_map, in_seq. lia.
Qed.

Lemma value_digit (n : N) : (n < 64)%N -> value (digit n) = Some n.
Proof.
  intros Hn.
  pose proof (below_64
                (fun k => match value (digit k) with
                          | Some v => N.eqb v k
                          | None => false
                          end) eq_refl n Hn) as H.
  cbv beta in H. destruct (value (digit n)) as [v |]; [| discriminate H].
  apply N.eqb_eq in H. now subst.
Qed.

Lemma digit_differs (c : ascii) (n : N) :
  forallb (fun k => negb (Ascii.eqb (digit k) c)) (map N.of_nat (seq 0 64)) = true ->
  (n < 64)%N -> Ascii.eqb (digit n) c = false.
Proof.
  intros Hall Hn. apply negb_true_iff.
  exact (below_64 (fun k => negb (Ascii.eqb (digit k) c)) Hall n Hn).
Qed.

Lemma digit_not_pad (n : N) : (n < 64)%N -> Ascii.eqb (digit n) pad = false.
Proof. now apply digit_differs. Qed.

Lemma digit_not_comma (n : N) : (n < 64)%N -> Ascii.eqb (digit n) "," = false.
Proof. now apply digit_differs. Qed.

Lemma byte_of_to_N (b : byte) : byte_of_N (Byte.to_N b) = b.
Proof. unfold byte_of_N. now rewrite Byte.of_to_N. Qed.

Lemma sextets (x y z : N) :
  (x <= 255 -> y <= 255 -> z <= 255 ->
   let s1 := x / 4 in
   let s2 := (x mod 4) * 16 + y / 16 in
   let s3 := (y mod 16) * 4 + z / 64 in
   let s4 := z mod 64 in
   s1 < 64 /\ s2 < 64 /\ s3 < 64 /\ s4 < 64
   /\ s1 * 4 + s2 / 16 = x
   /\ (s2 mod 16) * 16 + s3 / 4 = y
   /\ (s3 mod 4) * 64 + s4 = z)%N.
Proof.
  intros Hx Hy Hz s1 s2 s3 s4. subst s1 s2 s3 s4.
  repeat split.
  - clear Hy Hz. euclid.
  - clear Hz. euclid.
  - clear Hx. euclid.
  - clear Hx Hy. euclid.
  - clear Hz. euclid.
  - clear Hx. euclid.
  - clear Hx Hy. euclid.
Qed.

Lemma decode_quad (c1 c2 c3 c4 : ascii) (rest : string) :
  Ascii.eqb c4 pad = false ->
  decode (String c1 (String c2 (String c3 (String c4 rest))))
  = match value c1, value c2, value c3, value c4, decode rest with
    | Some v1, Some v2, Some v3, Some v4, Some bs =>
        Some (byte_of_N (v1 * 4 + v2 / 16)
                :: byte_of_N ((v2 mod 16) * 16 + v3 / 4)
                :: byte_of_N ((v3 mod 4) * 64 + v4) :: bs)%N
    | _, _, _, _, _ => None
    end.
Proof.
  intros Hc4. cbn [decode]. rewrite Hc4.
  destruct (value c1), (value c2), (value c3), (value c4), (decode rest);
    reflexivity.
Qed.

Lemma decode_last_two (c1 c2 c3 : ascii) :
  Ascii.eqb c3 pad = false ->
  decode (String c1 (String c2 (String c3 (String pad EmptyString))))
  = match value c1, value c2, value c3 with
    | Some v1, Some v2, Some v3 =>
        Some [byte_of_N (v1 * 4 + v2 / 16);
              byte_of_N ((v2 mod 16) * 16 + v3 / 4)]%N
    | _, _, _ => None
    end.
Proof.
  intros Hc3. cbn [decode]. rewrite Hc3, Ascii.eqb_refl.
  destruct (value c1), (value c2), (value c3); reflexivity.
Qed.

Lemma decode_last_one (c1 c2 : ascii) :
  decode (String c1 (String c2 (String pad (String pad EmptyString))))
  = match value c1, value c2 with
    | Some v1, Some v2 => Some [byte_of_N (v1 * 4 + v2 / 16)]%N
    | _, _ => None
    end.
Proof.
  cbn [decode]. rewrite Ascii.eqb_refl.
  destruct (value c1), (value c2); reflexivity.
Qed.

Lemma list_by_three {A : Type} (P : list A -> Prop) :
  P [] -> (forall a, P [a]) -> (forall a b, P [a; b]) ->
  (forall a b c l, P l -> P (a :: b :: c :: l)) ->
  forall l, P l.
Proof.
  intros H0 H1 H2 H3. fix IH 1.
  intros [| a [| b [| c l]]];
    [exact H0 | apply H1 | apply H2 | apply H3, IH].
Qed.

(** The round trip of the transport encoding. *)
Lemma decode_encode (bs : list byte) : decode (encode bs) = Some bs.
Proof.
  induction bs as [| a | a b | a b c rest IH] using list_by_three.
  - reflexivity.
  - pose proof (sextets (Byte.to_N a) 0 0 (Byte.to_N_bounded a))
      as (H1 & H2 & _ & _ & Ha & _); try lia.
    cbn [encode]. rewrite decode_last_one.
    rewrite N.Div0.div_0_l, N.add_0_r in *.
    rewrite !value_digit by assumption. now rewrite Ha, byte_of_to_N.
  - pose proof (sextets (Byte.to_N a) (Byte.to_N b) 0
                  (Byte.to_N_bounded a) (Byte.to_N_bounded b))
      as (H1 & H2 & H3 & _ & Ha & Hb & _); try lia.
    cbn [encode]. rewrite N.Div0.div_0_l, N.add_0_r in *.
    rewrite decode_last_two by now apply digit_not_pad.
    rewrite !value_digit by assumption.
    now rewrite Ha, Hb, !byte_of_to_N.
  - pose proof (sextets (Byte.to_N a) (Byte.to_N b) (Byte.to_N c)
                  (Byte.to_N_bounded a) (Byte.to_N_bounded b)
                  (Byte.to_N_bounded c))
      as (H1 & H2 & H3 & H4 & Ha & Hb & Hc).
    cbn [encode]. rewrite decode_quad by now apply digit_not_pad.
    rewrite !value_digit by assumption.
    now rewrite IH, Ha, Hb, Hc, !byte_of_to_N.
Qed.

End Base64Facts.

(** ** Ingestion of an accepted file ([reader.onload]) *)

Section IngestionFacts.
Import FileUpload.

Lemma occurs_app (c : ascii) (a b : string) :
  JsString.occurs c (a ++ b) = JsString.occurs c a || JsString.occurs c b.
Proof.
  induction a as [| d a IH]; cbn; [reflexivity |].
  now rewrite IH, orb_assoc.
Qed.

Lemma append_assoc (a b c : string) :
  (a ++ (b ++ c) = (a ++ b) ++ c)%string.
Proof. induction a as [| x a IH]; cbn; [reflexivity | now rewrite IH]. Qed.

Lemma split_at_first (sep : ascii) (head rest : string) :
  JsString.occurs sep head = false ->
  JsString.split sep (head ++ String sep rest)
  = head :: JsString.split sep rest.
Proof.
  induction head as [| c head IH]; cbn; intros H.
  - now rewrite Ascii.eqb_refl.
  - apply orb_false_iff in H. destruct H as [Hc Hhead].
    rewrite Ascii.eqb_sym, Hc. now rewrite (IH Hhead).
Qed.

Lemma split_nothing (sep : ascii) (s : string) :
  JsString.occurs sep s = false -> JsString.split sep s = [s].
Proof.
  induction s as [| c s IH]; cbn; intros H; [reflexivity |].
  apply orb_false_iff in H. destruct H as [Hc Hs].
  rewrite Ascii.eqb_sym, Hc. now rewrite (IH Hs).
Qed.

Lemma comma_not_digit (n : N) :
  (n < 64)%N -> Ascii.eqb "," (Base64.digit n) = false.
Proof. intros Hn. rewrite Ascii.eqb_sym. now apply digit_not_comma. Qed.

Lemma encode_has_no_comma (bs : list byte) :
  JsString.occurs "," (Base64.encode bs) = false.
Proof.
  induction bs as [| a | a b | a b c rest IH] using list_by_three.
  - reflexivity.
  - pose proof (sextets (Byte.to_N a) 0 0 (Byte.to_N_bounded a))
      as (H1 & H2 & _); try lia.
    rewrite N.Div0.div_0_l, N.add_0_r in *.
    cbn [Base64.encode JsString.occurs].
    now rewrite !comma_not_digit by assumption.
  - pose proof (sextets (Byte.to_N a) (Byte.to_N b) 0
                  (Byte.to_N_bounded a) (Byte.to_N_bounded b))
      as (H1 & H2 & H3 & _); try lia.
    rewrite N.Div0.div_0_l, N.add_0_r in *.
    cbn [Base64.encode JsString.occurs].
    now rewrite !comma_not_digit by assumption.
  - pose proof (sextets (Byte.to_N a) (Byte.to_N b) (Byte.to_N c)
                  (Byte.to_N_bounded a) (Byte.to_N_bounded b)
                  (Byte.to_N_bounded c))
      as (H1 & H2 & H3 & H4 & _).
    cbn [Base64.encode JsString.occurs].
    now rewrite !comma_not_digit, IH by assumption.
Qed.

Lemma reader_onload_payload (file : File) :
  Spec.plain_type (type file) ->
  reader_onload file = (Some (Base64.encode (contents file)), type file).
Proof.
  intros Hplain. unfold reader_onload, readAsDataURL.
  change (("data:" ++ type file ++ ";base64," ++ Base64.encode (contents file))%string)
    with (String "d" (String "a" (String "t" (String "a" (String ":"
            (type file ++ ";base64," ++ Base64.encode (contents file))))))%string).
  replace ((type file ++ ";base64," ++ Base64.encode (contents file))%string)
    with (((type file ++ ";base64") ++ String "," (Base64.encode (contents file)))%string).
  2: { now rewrite <- append_assoc. }
  assert (Hhead : JsString.occurs ","
                    (String "d" (String "a" (String "t" (String "a" (String ":"
                       (type file ++ ";base64")))))) = false).
  { cbn [JsString.occurs]. rewrite occurs_app, Hplain. reflexivity. }
  pose proof (split_at_first "," _ (Base64.encode (contents file)) Hhead) as Hsplit.
  cbn [append] in Hsplit. rewrite Hsplit.
  rewrite (split_nothing _ _ (encode_has_no_comma (contents file))).
  reflexivity.
Qed.

(** C4. A file of an allowed type and of at most 10 MiB passes the
    validation, is read, and reaches [onFileSelect] as its base64 text
    paired with its own MIME type; decoding that text gives back the bytes
    of the file, all of them and in order. *)
Theorem ingestion_round_trip (file : File) (others : list File)
  (error0 : option string) :
  Spec.allowed_type (type file) ->
  (size file <= Spec.size_limit)%N ->
  Spec.plain_type (type file) ->
  handleFileChange (file :: others) error0
    = {| error := None; reading := Some file |}
  /\ exists base64,
       onFileSelect_call (file :: others) error0
         = Some (Some base64, type file)
       /\ base64 = Base64.encode (contents file)
       /\ Base64.decode base64 = Some (contents file).
Proof.
  intros Hallowed Hsize Hplain.
  assert (Hok : handleFileChange (file :: others) error0
                = {| error := None; reading := Some file |}).
  { unfold handleFileChange.
    assert (negb (JsString.includes (type file) "pdf")
            && negb (JsString.includes (type file) "image") = false) as ->.
    { destruct Hallowed as [-> | ->]; [reflexivity | apply andb_false_r]. }
    unfold Spec.size_limit in Hsize.
    apply N.ltb_ge in Hsize. now rewrite Hsize. }
  split; [exact Hok |].
  exists (Base64.encode (contents file)).
  unfold onFileSelect_call. rewrite Hok. cbn [reading option_map].
  rewrite (reader_onload_payload file Hplain).
  repeat split. apply decode_encode.
Qed.

End IngestionFacts.

(** ** Doubles: the sign of a difference, the order, sums that stay numbers *)

Section DoubleFacts.
Import Double.
Local Open Scope Z_scope.

Lemma SFltb_below (x y : spec_float) :
  x <> S754_nan -> y <> S754_nan ->
  (SFltb x y = true <-> below (key x) (key y)).
Proof.
  intros Hx Hy. unfold SFltb, below.
  destruct x as [sx | sx | | sx mx ex]; try congruence;
    destruct y as [sy | sy | | sy my ey]; try congruence;
    try destruct sx; try destruct sy; cbn;
    try (split; [discriminate | lia]);
    try (split; [lia | reflexivity]).
  all: change (Pos.compare_cont Eq mx my) with (Pos.compare mx my).
  all: destruct (Z.compare_spec ex ey); destruct (Pos.compare_spec mx my);
      cbn; split; intros; try discriminate; try reflexivity; try lia.
Qed.

Lemma SFleb_below (x y : spec_float) :
  x <> S754_nan -> y <> S754_nan ->
  (SFleb x y = true <-> ~ below (key y) (key x)).
Proof.
  intros Hx Hy. unfold SFleb, below.
  destruct x as [sx | sx | | sx mx ex]; try congruence;
    destruct y as [sy | sy | | sy my ey]; try congruence;
    try destruct sx; try destruct sy; cbn;
    try (split; [discriminate | lia]);
    try (split; [lia | reflexivity]).
  all: change (Pos.compare_cont Eq mx my) with (Pos.compare mx my).
  all: destruct (Z.compare_spec ex ey); destruct (Pos.compare_spec mx my);
      cbn; split; intros; try discriminate; try reflexivity; try lia.
Qed.

Lemma digits2_pos_bounds (p : positive) :
  2 ^ (Zpos (digits2_pos p) - 1) <= Zpos p < 2 ^ Zpos (digits2_pos p).
Proof.
  induction p as [p IH | p IH |]; cbn [digits2_pos].
  - rewrite Pos2Z.inj_succ.
    replace (Z.succ (Zpos (digits2_pos p)) - 1)
      with (Z.succ (Zpos (digits2_pos p) - 1)) by lia.
    rewrite !Z.pow_succ_r by lia. lia.
  - rewrite Pos2Z.inj_succ.
    replace (Z.succ (Zpos (digits2_pos p)) - 1)
      with (Z.succ (Zpos (digits2_pos p) - 1)) by lia.
    rewrite !Z.pow_succ_r by lia. lia.
  - cbn. lia.
Qed.

Lemma shr_1_m (r : shr_record) :
  0 <= shr_m r -> shr_m (shr_1 r) = shr_m r / 2.
Proof.
  destruct r as [m rb sb]. cbn [shr_m]. intros Hm.
  destruct m as [| p | p]; [reflexivity | | lia].
  destruct p as [p | p |]; cbn [shr_1 shr_m];
    Z.to_euclidean_division_equations; lia.
Qed.

Lemma iter_shr_1_m (n : positive) (r : shr_record) :
  0 <= shr_m r -> shr_m (SpecFloat.iter_pos shr_1 n r) = shr_m r / 2 ^ Zpos n.
Proof.
  revert r. induction n as [n IH | n IH |]; intros r Hr; cbn [SpecFloat.iter_pos].
  - assert (H1 : 0 <= shr_m (shr_1 r))
      by (rewrite shr_1_m by exact Hr; apply Z.div_pos; lia).
    assert (H2 : 0 <= shr_m (SpecFloat.iter_pos shr_1 n (shr_1 r)))
      by (rewrite IH by exact H1; apply Z.div_pos; [exact H1 | lia]).
    rewrite IH by exact H2. rewrite IH by exact H1. rewrite shr_1_m by exact Hr.
    rewrite !Z.div_div by lia. f_equal.
    rewrite <- Z.pow_add_r by lia.
    rewrite <- (Z.pow_1_r 2) at 1. rewrite <- Z.pow_add_r by lia.
    f_equal. lia.
  - assert (H2 : 0 <= shr_m (SpecFloat.iter_pos shr_1 n r))
      by (rewrite IH by exact Hr; apply Z.div_pos; [exact Hr | lia]).
    rewrite IH by exact H2. rewrite IH by exact Hr.
    rewrite Z.div_div by lia. f_equal.
    rewrite <- Z.pow_add_r by lia. f_equal. lia.
  - rewrite shr_1_m by exact Hr. reflexivity.
Qed.

Lemma shr_record_of_loc_m (m : Z) (l : location) :
  shr_m (shr_record_of_loc m l) = m.
Proof. destruct l as [| []]; reflexivity. Qed.

Lemma shr_fexp_positive (p : positive) (e : Z) (l : location) :
  -1074 <= e ->
  0 < shr_m (fst (shr_fexp prec emax (Zpos p) e l))
  /\ -1074 <= snd (shr_fexp prec emax (Zpos p) e l).
Proof.
  intros He. unfold shr_fexp, shr. cbn [Zdigits2].
  pose proof (digits2_pos_bounds p) as [Hlow _].
  set (d := Zpos (digits2_pos p)) in *.
  assert (Hd : 0 < d) by (subst d; lia).
  unfold fexp, SpecFloat.emin, prec, emax.
  destruct (Z.max (d + e - 53) (3 - 1024 - 53) - e) as [| q | q] eqn:Hn;
    cbn [fst snd]; rewrite ?shr_record_of_loc_m; try lia.
  rewrite iter_shr_1_m by (rewrite shr_record_of_loc_m; lia).
  rewrite shr_record_of_loc_m. split; [| lia].
  apply Z.div_str_pos. split; [apply Z.pow_pos_nonneg; lia |].
  apply Z.le_trans with (2 ^ (d - 1)); [| exact Hlow].
  apply Z.pow_le_mono_r; lia.
Qed.

Lemma round_nearest_even_positive (m : Z) (l : location) :
  0 < m -> 0 < round_nearest_even m l.
Proof.
  intros Hm. destruct l as [| []]; cbn; try lia.
  destruct (Z.even m); lia.
Qed.

Lemma binary_round_aux_sign (s : bool) (p : positive) (e : Z) (l : location) :
  -1074 <= e ->
  binary_round_aux prec emax s (Zpos p) e l = S754_infinity s
  \/ exists m e', binary_round_aux prec emax s (Zpos p) e l = S754_finite s m e'.
Proof.
  intros He. unfold binary_round_aux.
  pose proof (shr_fexp_positive p e l He) as [Hm He'].
  destruct (shr_fexp prec emax (Zpos p) e l) as [mrs' e']. cbn [fst snd] in *.
  pose proof (round_nearest_even_positive (shr_m mrs')
                (loc_of_shr_record mrs') Hm) as Hr.
  destruct (round_nearest_even (shr_m mrs') (loc_of_shr_record mrs'))
    as [| p1 | p1]; try lia.
  pose proof (shr_fexp_positive p1 e' loc_Exact He') as [Hm2 _].
  destruct (shr_fexp prec emax (Zpos p1) e' loc_Exact) as [mrs2 e2].
  cbn [fst snd] in *.
  destruct (shr_m mrs2) as [| m | m]; try lia.
  destruct (e2 <=? emax - prec); [right; now exists m, e2 | now left].
Qed.

Lemma binary_round_sign (s : bool) (p : positive) (e : Z) :
  -1074 <= e ->
  binary_round prec emax s p e = S754_infinity s
  \/ exists m e', binary_round prec emax s p e = S754_finite s m e'.
Proof.
  intros He. unfold binary_round.
  destruct (shl_align p e (fexp prec emax (Zpos (digits2_pos p) + e)))
    as [mz ez] eqn:Hs.
  apply binary_round_aux_sign.
  unfold shl_align in Hs.
  destruct (fexp prec emax (Zpos (digits2_pos p) + e) - e) eqn:Hd;
    injection Hs as <- <-; try exact He.
  unfold fexp, SpecFloat.emin, prec, emax. lia.
Qed.

Lemma binary_normalize_positive (m e : Z) :
  -1074 <= e ->
  SFltb (S754_zero false) (binary_normalize prec emax m e false) = (0 <? m).
Proof.
  intros He. destruct m as [| p | p]; cbn [binary_normalize].
  - reflexivity.
  - destruct (binary_round_sign false p e He) as [-> | (m & e' & ->)];
      reflexivity.
  - destruct (binary_round_sign true p e He) as [-> | (m & e' & ->)];
      reflexivity.
Qed.

Lemma iter_xO (m d : positive) :
  Zpos (Pos.iter xO m d) = Zpos m * 2 ^ Zpos d.
Proof.
  induction d as [| d IH] using Pos.peano_ind.
  - cbn. lia.
  - rewrite Pos.iter_succ, Pos2Z.inj_xO, IH, Pos2Z.inj_succ, Z.pow_succ_r by lia.
    lia.
Qed.

Lemma shl_align_value (m : positive) (e ez : Z) :
  ez <= e -> Zpos (fst (shl_align m e ez)) = Zpos m * 2 ^ (e - ez).
Proof.
  intros Hle. unfold shl_align.
  destruct (ez - e) as [| d | d] eqn:Hd; cbn [fst]; try lia.
  - replace (e - ez) with 0 by lia. lia.
  - rewrite iter_xO. f_equal. f_equal. lia.
Qed.

Lemma bounded_digits (m : positive) (e : Z) :
  bounded prec emax m e = true ->
  -1074 <= e
  /\ Zpos m < 2 ^ 53
  /\ (-1074 < e -> 2 ^ 52 <= Zpos m).
Proof.
  unfold bounded, canonical_mantissa, fexp, SpecFloat.emin, prec, emax.
  intros H. apply andb_true_iff in H. destruct H as [H _].
  apply Z.eqb_eq in H.
  pose proof (digits2_pos_bounds m) as [Hlow Hhigh].
  set (d := Zpos (digits2_pos m)) in *.
  split; [lia | split].
  - apply Z.lt_le_trans with (2 ^ d); [exact Hhigh |].
    apply Z.pow_le_mono_r; lia.
  - intros He. replace 52 with (d - 1) by lia. exact Hlow.
Qed.

Lemma pow2_ge_2 (k : Z) : 0 < k -> 2 <= 2 ^ k.
Proof.
  intros Hk. replace k with (Z.succ (k - 1)) by lia.
  rewrite Z.pow_succ_r by lia.
  pose proof (Z.pow_pos_nonneg 2 (k - 1)). lia.
Qed.

(** The sign of the difference of two numbers tells their order. *)
Lemma SFsub_positive (x y : spec_float) :
  SpecFloat.valid_binary prec emax x = true ->
  SpecFloat.valid_binary prec emax y = true ->
  x <> S754_nan -> y <> S754_nan ->
  SFltb (S754_zero false) (SF64sub x y) = SFltb y x.
Proof.
  intros Vx Vy Hx Hy.
  destruct x as [sx | sx | | sx mx ex]; try congruence;
    destruct y as [sy | sy | | sy my ey]; try congruence;
    try (destruct sx; destruct sy; reflexivity);
    try (destruct sx; reflexivity); try (destruct sy; reflexivity).
  cbn [SpecFloat.valid_binary] in Vx, Vy.
  destruct (bounded_digits mx ex Vx) as (Hex & Hmx & Hnx).
  destruct (bounded_digits my ey Vy) as (Hey & Hmy & Hny).
  unfold SF64sub, SFsub.
  rewrite binary_normalize_positive by lia.
  rewrite (shl_align_value mx ex (Z.min ex ey)) by lia.
  rewrite (shl_align_value my ey (Z.min ex ey)) by lia.
  unfold SFltb, SFcompare.
  change (Pos.compare_cont Eq my mx) with (Pos.compare my mx).
  assert (Hpx : 0 < Zpos mx) by lia. assert (Hpy : 0 < Zpos my) by lia.
  destruct (Z.compare_spec ey ex) as [Heq | Hlt | Hgt].
  - subst ey. rewrite Z.min_id, Z.sub_diag, Z.pow_0_r, !Z.mul_1_r.
    destruct sx; destruct sy; cbn [cond_Zopp];
      destruct (Pos.compare_spec my mx);
      match goal with |- (0 <? ?d) = _ => remember d as D eqn:HD end;
      cbn; subst D;
      try (apply Z.ltb_lt; lia); try (apply Z.ltb_ge; lia).
  - rewrite Z.min_r by lia. rewrite Z.sub_diag, Z.pow_0_r, Z.mul_1_r.
    pose proof (pow2_ge_2 (ex - ey) ltac:(lia)) as Hp.
    specialize (Hnx ltac:(lia)).
    assert (Hbig : Zpos my < Zpos mx * 2 ^ (ex - ey)) by nia.
    destruct sx; destruct sy; cbn [cond_Zopp];
      match goal with |- (0 <? ?d) = _ => remember d as D eqn:HD end;
      cbn; subst D;
      try (apply Z.ltb_lt; lia); try (apply Z.ltb_ge; lia).
  - rewrite Z.min_l by lia. rewrite Z.sub_diag, Z.pow_0_r, Z.mul_1_r.
    pose proof (pow2_ge_2 (ey - ex) ltac:(lia)) as Hp.
    specialize (Hny ltac:(lia)).
    assert (Hbig : Zpos mx < Zpos my * 2 ^ (ey - ex)) by nia.
    destruct sx; destruct sy; cbn [cond_Zopp];
      match goal with |- (0 <? ?d) = _ => remember d as D eqn:HD end;
      cbn; subst D;
      try (apply Z.ltb_lt; lia); try (apply Z.ltb_ge; lia).
Qed.

Lemma Prim2SF_number (x : float) :
  is_nan x = false -> Prim2SF x <> S754_nan.
Proof.
  unfold is_nan. rewrite FloatAxioms.eqb_spec. intros H Hn. rewrite Hn in H.
  discriminate H.
Qed.

(** For doubles that are numbers, [0 < x - y] is [y < x]. *)
Lemma sub_positive (x y : float) :
  is_nan x = false -> is_nan y = false ->
  (0 <? x - y)%float = (y <? x)%float.
Proof.
  intros Hx Hy. rewrite !FloatAxioms.ltb_spec, FloatAxioms.sub_spec.
  change (Prim2SF 0) with (S754_zero false).
  apply SFsub_positive; auto using Prim2SF_valid, Prim2SF_number.
Qed.

Lemma ltb_below (x y : float) :
  is_nan x = false -> is_nan y = false ->
  ((x <? y)%float = true <-> below (key (Prim2SF x)) (key (Prim2SF y))).
Proof.
  intros Hx Hy. rewrite FloatAxioms.ltb_spec.
  apply SFltb_below; now apply Prim2SF_number.
Qed.

Lemma leb_below (x y : float) :
  is_nan x = false -> is_nan y = false ->
  ((x <=? y)%float = true <-> ~ below (key (Prim2SF y)) (key (Prim2SF x))).
Proof.
  intros Hx Hy. rewrite FloatAxioms.leb_spec.
  apply SFleb_below; now apply Prim2SF_number.
Qed.

(** For doubles that are numbers, [x - y] is not positive exactly when
    [x <= y]. *)
Lemma not_positive_leb (x y : float) :
  is_nan x = false -> is_nan y = false ->
  ((0 <? x - y)%float = false <-> (x <=? y)%float = true).
Proof.
  intros Hx Hy. rewrite (sub_positive x y Hx Hy), (leb_below x y Hx Hy).
  rewrite <- (ltb_below y x Hy Hx).
  destruct (y <? x)%float; split; intros H; try reflexivity; try discriminate;
    try (intros H'; discriminate H'); exfalso; now apply H.
Qed.

Lemma SFadd_nonnegative (x y : spec_float) :
  SpecFloat.valid_binary prec emax x = true ->
  SpecFloat.valid_binary prec emax y = true ->
  SFleb (S754_zero false) x = true -> SFleb (S754_zero false) y = true ->
  SFleb (S754_zero false) (SF64add x y) = true.
Proof.
  intros Vx Vy Hx Hy.
  destruct x as [sx | sx | | sx mx ex]; try discriminate Hx;
    destruct y as [sy | sy | | sy my ey]; try discriminate Hy;
    try destruct sx; try destruct sy;
    try discriminate Hx; try discriminate Hy; try reflexivity.
  cbn [SpecFloat.valid_binary] in Vx, Vy.
  destruct (bounded_digits mx ex Vx) as (Hex & _).
  destruct (bounded_digits my ey Vy) as (Hey & _).
  unfold SF64add, SFadd. cbn [cond_Zopp Z.add binary_normalize].
  destruct (binary_round_sign false
              (fst (shl_align mx ex (Z.min ex ey))
               + fst (shl_align my ey (Z.min ex ey)))
              (Z.min ex ey) ltac:(lia)) as [-> | (m & e' & ->)]; reflexivity.
Qed.

(** The sum of two numbers that are not negative is a number that is not
    negative. *)
Lemma add_nonnegative (x y : float) :
  (0 <=? x)%float = true -> (0 <=? y)%float = true ->
  (0 <=? x + y)%float = true.
Proof.
  rewrite !FloatAxioms.leb_spec, FloatAxioms.add_spec.
  change (Prim2SF 0) with (S754_zero false).
  apply SFadd_nonnegative; apply Prim2SF_valid.
Qed.

Lemma SFeqb_refl (x : spec_float) : x <> S754_nan -> SFeqb x x = true.
Proof.
  intros Hx. unfold SFeqb.
  destruct x as [s | s | | s m e]; try congruence; try destruct s; cbn;
    try reflexivity.
  all: change (Pos.compare_cont Eq m m) with (Pos.compare m m).
  all: now rewrite Z.compare_refl, Pos.compare_refl.
Qed.

(** What is not below zero is a number. *)
Lemma nonnegative_number (x : float) :
  (0 <=? x)%float = true -> is_nan x = false.
Proof.
  rewrite FloatAxioms.leb_spec. change (Prim2SF 0) with (S754_zero false).
  intros H. unfold is_nan. rewrite FloatAxioms.eqb_spec, SFeqb_refl.
  - reflexivity.
  - intros Hn. rewrite Hn in H. discriminate H.
Qed.

Lemma SFadd_not_negative_zero (x y : spec_float) :
  SpecFloat.valid_binary prec emax x = true ->
  SpecFloat.valid_binary prec emax y = true ->
  x <> S754_zero true -> SF64add x y <> S754_zero true.
Proof.
  intros Vx Vy Hx.
  destruct x as [sx | sx | | sx mx ex];
    destruct y as [sy | sy | | sy my ey];
    try destruct sx; try destruct sy; try congruence; try discriminate.
  all: cbn [SpecFloat.valid_binary] in Vx, Vy.
  all: destruct (bounded_digits mx ex Vx) as (Hex & _).
  all: destruct (bounded_digits my ey Vy) as (Hey & _).
  all: unfold SF64add, SFadd.
  all: match goal with
       | |- binary_normalize _ _ ?m ?e _ <> _ =>
           destruct m as [| p | p] eqn:Hm; cbn [binary_normalize];
           [discriminate
           | destruct (binary_round_sign false p e ltac:(lia))
               as [-> | (m' & e' & ->)]; discriminate
           | destruct (binary_round_sign true p e ltac:(lia))
               as [-> | (m' & e' & ->)]; discriminate]
       end.
Qed.

Lemma is_zero_spec (s : float) :
  is_zero s = true -> exists sign, Prim2SF s = S754_zero sign.
Proof.
  unfold is_zero. rewrite FloatAxioms.eqb_spec.
  change (Prim2SF PrimFloat.zero) with (S754_zero false).
  destruct (Prim2SF s) as [sign | sign | | sign m e]; try discriminate.
  - intros _. now exists sign.
  - destruct sign; discriminate.
  - destruct sign; discriminate.
Qed.

Lemma restart_kept (s : float) :
  (0 <=? s)%float = true -> Prim2SF s <> S754_zero true ->
  (if is_zero s || is_nan s then 0%float else s) = s.
Proof.
  intros Hs Hz. rewrite (nonnegative_number s Hs), orb_false_r.
  destruct (is_zero s) eqn:Hzero; [| reflexivity].
  destruct (is_zero_spec s Hzero) as [[|] Hsign]; [contradiction |].
  rewrite <- (SF2Prim_Prim2SF s), Hsign. reflexivity.
Qed.

(** Numbers that are not negative add up to their sum, which is not
    negative. *)
Lemma add_up_sum (amounts : list float) (s : float) :
  (0 <=? s)%float = true -> Prim2SF s <> S754_zero true ->
  Forall (fun a => (0 <=? a)%float = true) amounts ->
  Spec.add_up s amounts = fold_left PrimFloat.add amounts s
  /\ (0 <=? fold_left PrimFloat.add amounts s)%float = true.
Proof.
  intros Hs Hz Hall. revert s Hs Hz.
  induction Hall as [| a amounts Ha _ IH]; intros s Hs Hz.
  - split; [reflexivity | exact Hs].
  - unfold Spec.add_up. cbn [fold_left]. fold (Spec.add_up ((if is_zero s || is_nan s then 0 else s) + a)%float amounts). rewrite (restart_kept s Hs Hz).
    apply IH.
    + now apply add_nonnegative.
    + rewrite FloatAxioms.add_spec.
      apply SFadd_not_negative_zero; auto using Prim2SF_valid.
Qed.

End DoubleFacts.


(** ** Category aggregation ([categoryData]) *)

Section AggregationFacts.
Import Types Unicode Dashboard.

Lemma own_store_same (cats : Categories) (k : ustring) (v : JsVal) :
  own (store cats k v) k = Some v.
Proof.
  induction cats as [| [k' v'] cats IH]; cbn.
  - now rewrite ustring_eqb_refl.
  - destruct (Unicode.eqb k' k) eqn:Hk; cbn; now rewrite Hk.
Qed.

Lemma own_store_other (cats : Categories) (k k' : ustring) (v : JsVal) :
  k <> k' -> own (store cats k v) k' = own cats k'.
Proof.
  intros Hne. induction cats as [| [k0 v0] cats IH]; cbn.
  - destruct (ustring_eqb_spec k k'); congruence.
  - destruct (ustring_eqb_spec k0 k) as [-> | Hk0]; cbn.
    + destruct (ustring_eqb_spec k k'); congruence.
    + now rewrite IH.
Qed.

Lemma keys_store (cats : Categories) (k k' : ustring) (v : JsVal) :
  In k' (map fst (store cats k v)) <-> k' = k \/ In k' (map fst cats).
Proof.
  induction cats as [| [k0 v0] cats IH]; cbn.
  - intuition.
  - destruct (ustring_eqb_spec k0 k) as [-> | Hk0]; cbn.
    + intuition.
    + rewrite IH. intuition.
Qed.

Lemma NoDup_store (cats : Categories) (k : ustring) (v : JsVal) :
  NoDup (map fst cats) -> NoDup (map fst (store cats k v)).
Proof.
  induction cats as [| [k0 v0] cats IH]; cbn; intros Hnd.
  - constructor; [intros [] | constructor].
  - inversion Hnd as [| ? ? Hnot Hrest]; subst.
    destruct (ustring_eqb_spec k0 k) as [-> | Hk0]; cbn.
    + now constructor.
    + constructor; [| now apply IH].
      rewrite keys_store. intros [-> | Hin]; [now apply Hk0 | now apply Hnot].
Qed.

Lemma numeric_store (cats : Categories) (k : ustring) (x : float) :
  numeric cats -> numeric (store cats k (Num x)).
Proof.
  unfold numeric. induction 1 as [| [k0 v0] cats Hv Hrest IH]; cbn.
  - constructor; [now exists x | constructor].
  - destruct (Unicode.eqb k0 k).
    + constructor; [now exists x | exact Hrest].
    + constructor; [exact Hv | exact IH].
Qed.

Lemma own_In (cats : Categories) (k : ustring) (v : JsVal) :
  own cats k = Some v -> In (k, v) cats.
Proof.
  induction cats as [| [k0 v0] cats IH]; cbn; [discriminate |].
  destruct (ustring_eqb_spec k0 k) as [-> | Hk0].
  - intros H. injection H as ->. now left.
  - intros H. right. now apply IH.
Qed.

Lemma In_own (cats : Categories) (k : ustring) (v : JsVal) :
  NoDup (map fst cats) -> (In (k, v) cats <-> own cats k = Some v).
Proof.
  intros Hnd. split; [| apply own_In].
  induction cats as [| [k0 v0] cats IH]; cbn; [intros [] |].
  inversion Hnd as [| ? ? Hnot Hrest]; subst.
  destruct (ustring_eqb_spec k0 k) as [-> | Hk0].
  - intros [H | H]; [congruence |].
    exfalso. apply Hnot. now apply (in_map fst) in H.
  - intros [H | H]; [congruence | now apply IH].
Qed.

Lemma own_None (cats : Categories) (k : ustring) :
  own cats k = None <-> ~ In k (map fst cats).
Proof.
  induction cats as [| [k0 v0] cats IH]; cbn.
  - intuition.
  - destruct (ustring_eqb_spec k0 k) as [-> | Hk0].
    + split; [discriminate | intros H; exfalso; apply H; now left].
    + rewrite IH. intuition.
Qed.

Lemma existsb_eqb_false (k : ustring) (l : list ustring) :
  existsb (Unicode.eqb k) l = false <-> ~ In k l.
Proof.
  induction l as [| x l IH]; cbn.
  - intuition.
  - rewrite orb_false_iff, IH.
    destruct (ustring_eqb_spec k x) as [-> | Hne]; intuition congruence.
Qed.

Lemma fresh_not_inherited (k : ustring) :
  Spec.fresh_name k <-> is_inherited k = false.
Proof.
  unfold Spec.fresh_name, is_inherited, inherited. symmetry.
  apply existsb_eqb_false.
Qed.

Lemma fresh_not_proto (k : ustring) :
  Spec.fresh_name k -> Unicode.eqb k (u "__proto__") = false.
Proof.
  intros Hk. destruct (ustring_eqb_spec k (u "__proto__")) as [-> | _];
    [| reflexivity].
  exfalso. apply Hk. apply in_map. do 11 right. now left.
Qed.

Lemma filter_and {A : Type} (f g : A -> bool) (l : list A) :
  filter g (filter f l) = filter (fun x => f x && g x) l.
Proof.
  induction l as [| x l IH]; cbn; [reflexivity |].
  destruct (f x); cbn; [destruct (g x) |]; now rewrite IH.
Qed.

Lemma add_up_cons (s a : float) (rest : list float) :
  Spec.add_up s (a :: rest)
  = Spec.add_up
      ((if PrimFloat.is_zero s || PrimFloat.is_nan s then 0 else s) + a)%float
      rest.
Proof. reflexivity. Qed.

(** *** One pass over the transactions, whatever the key *)

Section Tally.

Variable key : Transaction -> ustring.
Variable f : Categories -> Transaction -> Categories.

Hypothesis f_body :
  forall cats t,
    f cats t
    = assign cats (key t) (plus (or_zero (read cats (key t))) (amount t)).

(** Under a name that is not inherited the sum is a number and is stored. *)
Lemma tally_fresh (cats : Categories) (t : Transaction) :
  Spec.fresh_name (key t) -> numeric cats ->
  f cats t
  = store cats (key t)
      (Num ((if PrimFloat.is_zero (held cats (key t))
                || PrimFloat.is_nan (held cats (key t))
             then 0 else held cats (key t)) + amount t)%float).
Proof.
  intros Hfresh Hnum. rewrite f_body. unfold assign.
  rewrite (fresh_not_proto _ Hfresh). f_equal.
  unfold read, held.
  destruct (own cats (key t)) as [v |] eqn:Hown.
  - apply own_In in Hown. unfold numeric in Hnum.
    rewrite Forall_forall in Hnum. destruct (Hnum _ Hown) as [x Hx].
    cbn in Hx. subst v. cbn [or_zero]. unfold falsy.
    now destruct (PrimFloat.is_zero x || PrimFloat.is_nan x).
  - apply fresh_not_inherited in Hfresh. rewrite Hfresh. reflexivity.
Qed.

Lemma tally_held (cats : Categories) (t : Transaction) (k : ustring) :
  Spec.fresh_name (key t) -> numeric cats ->
  held (f cats t) k
  = if Unicode.eqb (key t) k
    then ((if PrimFloat.is_zero (held cats k) || PrimFloat.is_nan (held cats k)
           then 0 else held cats k) + amount t)%float
    else held cats k.
Proof.
  intros Hfresh Hnum. rewrite (tally_fresh cats t Hfresh Hnum).
  destruct (ustring_eqb_spec (key t) k) as [<- | Hk].
  - unfold held at 1. now rewrite own_store_same.
  - unfold held at 1. rewrite own_store_other by exact Hk. reflexivity.
Qed.

Lemma tally_fold (txs : list Transaction) (cats : Categories) :
  NoDup (map fst cats) -> numeric cats ->
  Forall (fun t => Spec.fresh_name (key t)) txs ->
  NoDup (map fst (fold_left f txs cats))
  /\ numeric (fold_left f txs cats)
  /\ (forall k,
        In k (map fst (fold_left f txs cats))
        <-> In k (map fst cats) \/ exists t, In t txs /\ key t = k)
  /\ (forall k,
        held (fold_left f txs cats) k
        = Spec.add_up (held cats k)
            (map amount (filter (fun t => Unicode.eqb (key t) k) txs))).
Proof.
  intros Hnd Hnum Hfresh. revert cats Hnd Hnum.
  induction Hfresh as [| t txs Ht _ IH]; intros cats Hnd Hnum; cbn [fold_left].
  - split; [exact Hnd | split; [exact Hnum | split]].
    + intros k. split; [now left | intros [H | (t & [] & _)]; exact H].
    + reflexivity.
  - pose proof (tally_fresh cats t Ht Hnum) as Hstep.
    assert (Hnd' : NoDup (map fst (f cats t)))
      by (rewrite Hstep; now apply NoDup_store).
    assert (Hnum' : numeric (f cats t))
      by (rewrite Hstep; now apply numeric_store).
    destruct (IH (f cats t) Hnd' Hnum') as (H1 & H2 & H3 & H4).
    split; [exact H1 | split; [exact H2 | split]].
    + intros k. rewrite H3. rewrite Hstep at 1. rewrite keys_store. split.
      * intros [[-> | H] | (t' & Hin & Hk)].
        -- right. exists t. split; [now left | reflexivity].
        -- now left.
        -- right. exists t'. split; [now right | exact Hk].
      * intros [H | (t' & [<- | Hin] & Hk)].
        -- left. now right.
        -- left. left. now rewrite Hk.
        -- right. now exists t'.
    + intros k. rewrite H4, (tally_held cats t k Ht Hnum). cbn [filter].
      destruct (Unicode.eqb (key t) k); reflexivity.
Qed.

(** What the object holds after a pass that started from [{}]. *)
Lemma tally_entries (txs : list Transaction) :
  Forall (fun t => Spec.fresh_name (key t)) txs ->
  NoDup (map fst (fold_left f txs []))
  /\ forall k v,
       In (k, v) (fold_left f txs [])
       <-> (exists t, In t txs /\ key t = k)
           /\ v = Num (Spec.add_up 0
                         (map amount
                            (filter (fun t => Unicode.eqb (key t) k) txs))).
Proof.
  intros Hfresh.
  destruct (tally_fold txs [] (NoDup_nil _) (Forall_nil _) Hfresh)
    as (Hnd & Hnum & Hkeys & Hheld).
  split; [exact Hnd |]. intros k v.
  specialize (Hkeys k). specialize (Hheld k). cbn in Hkeys.
  change (held [] k) with 0%float in Hheld. split.
  - intros Hin. split.
    + apply (in_map fst) in Hin. apply Hkeys in Hin.
      now destruct Hin as [[] | Hin].
    + unfold numeric in Hnum. rewrite Forall_forall in Hnum.
      destruct (Hnum _ Hin) as [x Hx]. cbn in Hx. subst v.
      apply (In_own _ _ _ Hnd) in Hin. unfold held in Hheld.
      rewrite Hin in Hheld. now rewrite Hheld.
  - intros [Hk ->].
    assert (Hin : In k (map fst (fold_left f txs []))) by (apply Hkeys; now right).
    destruct (own (fold_left f txs []) k) as [v |] eqn:Hown.
    + pose proof (own_In _ _ _ Hown) as Hv.
      unfold numeric in Hnum. rewrite Forall_forall in Hnum.
      destruct (Hnum _ Hv) as [x Hx]. cbn in Hx. subst v.
      unfold held in Hheld. rewrite Hown in Hheld. now rewrite <- Hheld.
    + apply own_None in Hown. contradiction.
Qed.

(** Names that are [__proto__] leave the object as it is; any other name
    leaves it with a property. *)
Lemma tally_empty (txs : list Transaction) (cats : Categories) :
  fold_left f txs cats = []
  <-> cats = [] /\ forall t, In t txs -> key t = u "__proto__".
Proof.
  revert cats. induction txs as [| t txs IH]; intros cats; cbn [fold_left].
  - split; [intros ->; split; [reflexivity | intros t []] | now intros [-> _]].
  - rewrite IH, f_body. unfold assign.
    destruct (ustring_eqb_spec (key t) (u "__proto__")) as [Hk | Hk].
    + split; intros [Hc Hall]; (split; [exact Hc |]).
      * intros t' [<- | Hin]; auto.
      * intros t' Hin. apply Hall. now right.
    + split.
      * intros [Hc _]. exfalso. clear - Hc. destruct cats as [| [k0 v0] cats];
          cbn in Hc; [discriminate |].
        destruct (Unicode.eqb k0 (key t)); discriminate.
      * intros [_ Hall]. exfalso. apply Hk. apply Hall. now left.
Qed.

End Tally.

(** *** The order of the entries and of the slices *)

Lemma insert_index_perm (i : N) (e : ustring * JsVal)
  (l : list (N * (ustring * JsVal))) :
  Permutation (insert_index i e l) ((i, e) :: l).
Proof.
  induction l as [| [j e'] l IH]; cbn.
  - reflexivity.
  - destruct (i <? j)%N; [reflexivity |].
    rewrite IH. apply perm_swap.
Qed.

Lemma index_entries_perm (cats : Categories) :
  Permutation (map snd (index_entries cats))
              (filter (fun e => negb (named e)) cats).
Proof.
  induction cats as [| e cats IH]; cbn.
  - reflexivity.
  - unfold named at 1. destruct (array_index (fst e)) as [i |]; cbn.
    + rewrite insert_index_perm. cbn. now apply perm_skip.
    + exact IH.
Qed.

Lemma filter_split_perm {A : Type} (f : A -> bool) (l : list A) :
  Permutation (filter (fun x => negb (f x)) l ++ filter f l) l.
Proof.
  induction l as [| x l IH]; cbn.
  - reflexivity.
  - destruct (f x); cbn.
    + rewrite <- Permutation_middle. now apply perm_skip.
    + now apply perm_skip.
Qed.

Lemma Object_entries_perm (cats : Categories) :
  Permutation (Object_entries cats) cats.
Proof.
  unfold Object_entries. rewrite index_entries_perm.
  apply filter_split_perm.
Qed.

Lemma insert_desc_perm (a : Slice) (l : list Slice) :
  Permutation (insert_desc a l) (a :: l).
Proof.
  induction l as [| b l IH]; cbn [insert_desc].
  - reflexivity.
  - destruct (behind a b); [| reflexivity].
    rewrite IH. apply perm_swap.
Qed.

Lemma sort_desc_perm (l : list Slice) : Permutation (sort_desc l) l.
Proof.
  induction l as [| a l IH]; cbn.
  - reflexivity.
  - rewrite insert_desc_perm. now apply perm_skip.
Qed.

Lemma insert_desc_sorted (numbers : list float) (a : Slice) (l : list Slice) :
  Spec.ordered_by_exceeds numbers ->
  In (toNumber (value a)) numbers ->
  Forall (fun b => In (toNumber (value b)) numbers) l ->
  StronglySorted
    (fun x y => Spec.exceeds (toNumber (value y)) (toNumber (value x)) = false) l ->
  StronglySorted
    (fun x y => Spec.exceeds (toNumber (value y)) (toNumber (value x)) = false)
    (insert_desc a l).
Proof.
  intros [Hasym Htrans] Ha Hall Hsorted.
  induction Hsorted as [| b l Hs IH Hb]; cbn [insert_desc].
  - constructor; constructor.
  - inversion Hall as [| ? ? Hbn Hln]; subst.
    change (behind a b)
      with (Spec.exceeds (toNumber (value b)) (toNumber (value a))).
    destruct (Spec.exceeds (toNumber (value b)) (toNumber (value a))) eqn:Hab.
    + constructor; [now apply IH |].
      rewrite insert_desc_perm. constructor; [| exact Hb].
      now apply Hasym.
    + constructor; [now constructor |].
      constructor; [exact Hab |].
      rewrite Forall_forall in Hb, Hln |- *. intros c Hc.
      apply (Htrans _ (toNumber (value b))); auto.
Qed.

Lemma sort_desc_sorted (numbers : list float) (l : list Slice) :
  Spec.ordered_by_exceeds numbers ->
  Forall (fun b => In (toNumber (value b)) numbers) l ->
  StronglySorted
    (fun x y => Spec.exceeds (toNumber (value y)) (toNumber (value x)) = false)
    (sort_desc l).
Proof.
  intros Hord. induction 1 as [| a l Ha Hl IH]; cbn.
  - constructor.
  - apply (insert_desc_sorted numbers); auto.
    exact (Permutation_Forall (Permutation_sym (sort_desc_perm l)) Hl).
Qed.

(** Doubles that are numbers are ordered by [exceeds]. *)
Lemma numbers_ordered (l : list float) :
  Forall (fun x => is_nan x = false) l -> Spec.ordered_by_exceeds l.
Proof.
  intros Hl. rewrite Forall_forall in Hl.
  unfold Spec.ordered_by_exceeds, Spec.exceeds. split.
  - intros x y Hx Hy. rewrite !sub_positive by auto.
    intros H. apply (ltb_below y x) in H; auto.
    apply not_true_is_false. intros H'. apply (ltb_below x y) in H'; auto.
    unfold Double.below in *. lia.
  - intros x y z Hx Hy Hz. rewrite !sub_positive by auto.
    intros H1 H2. apply not_true_is_false. intros H3.
    apply (ltb_below x z) in H3; auto.
    assert (H1' : ~ Double.below (Double.key (Prim2SF x)) (Double.key (Prim2SF y))).
    { intros H. apply (ltb_below x y) in H; auto. congruence. }
    assert (H2' : ~ Double.below (Double.key (Prim2SF y)) (Double.key (Prim2SF z))).
    { intros H. apply (ltb_below y z) in H; auto. congruence. }
    unfold Double.below in *. lia.
Qed.

(** Among numbers, a list in which no element is exceeded by a later one
    is in descending order. *)
Lemma descending (l : list Slice) :
  Forall (fun s => is_nan (toNumber (value s)) = false) l ->
  StronglySorted
    (fun x y => Spec.exceeds (toNumber (value y)) (toNumber (value x)) = false) l ->
  StronglySorted
    (fun x y => (toNumber (value y) <=? toNumber (value x))%float = true) l.
Proof.
  intros Hn Hs. induction Hs as [| a l Hs IH Ha]; constructor.
  - apply IH. now inversion Hn.
  - inversion Hn as [| ? ? Hna Hnl]; subst.
    rewrite Forall_forall in *. intros b Hb.
    apply not_positive_leb; auto. exact (Ha b Hb).
Qed.

(** Amounts that are not negative add up to their sum. *)
Lemma add_up_nonnegative (amounts : list float) :
  Forall Spec.nonnegative amounts ->
  Spec.add_up 0 amounts = Spec.sum amounts
  /\ Spec.nonnegative (Spec.sum amounts).
Proof.
  intros H. apply add_up_sum; [reflexivity | discriminate | exact H].
Qed.

Lemma sorted_app_inv {A : Type} (R : A -> A -> Prop) (l1 l2 : list A) :
  StronglySorted R (l1 ++ l2) ->
  StronglySorted R l1 /\ forall a b, In a l1 -> In b l2 -> R a b.
Proof.
  induction l1 as [| x l1 IH]; cbn; intros Hs.
  - split; [constructor | intros a b []].
  - inversion Hs as [| ? ? Hrest Hx]; subst.
    destruct (IH Hrest) as [Hs1 Hcross].
    apply Forall_app in Hx. destruct Hx as [Hx1 Hx2]. split.
    + now constructor.
    + intros a b [<- | Ha] Hb.
      * rewrite Forall_forall in Hx2. now apply Hx2.
      * now apply Hcross.
Qed.

Lemma accumulate_body (cats : Categories) (t : Transaction) :
  accumulate cats t
  = assign cats (category t)
      (plus (or_zero (read cats (category t))) (amount t)).
Proof. reflexivity. Qed.

Lemma expense_category_filter (k : ustring) (txs : list Transaction) :
  (exists t, In t (filter is_expense txs) /\ category t = k)
  <-> Spec.expense_category k txs.
Proof.
  unfold Spec.expense_category. split; intros (t & Hin & H).
  - apply filter_In in Hin. destruct Hin as [Hin Hty]. exists t.
    unfold is_expense in Hty. destruct (type t); [discriminate | auto].
  - destruct H as [Hty Hc]. exists t. split; [| exact Hc].
    apply filter_In. split; [exact Hin |]. unfold is_expense. now rewrite Hty.
Qed.

(** All the slices, before the first six are taken: one for each category
    of an EXPENSE transaction, with the total of the category, as long as
    no such category has an inherited name; in descending order when the
    totals are numbers. *)
Lemma ranked_entries (txs : list Transaction) :
  (forall t, In t txs -> type t = EXPENSE -> Spec.fresh_name (category t)) ->
  exists sorted,
    categoryData txs = firstn 6 sorted
    /\ NoDup (map name sorted)
    /\ (forall s, In s sorted <->
                  Spec.expense_category (name s) txs
                  /\ value s = Num (Spec.expense_total (name s) txs))
    /\ (Forall (fun x => is_nan x = false) (Spec.expense_totals txs) ->
        StronglySorted
          (fun x y => (toNumber (value y) <=? toNumber (value x))%float = true)
          sorted).
Proof.
  intros Hfresh.
  assert (Hf : Forall (fun t => Spec.fresh_name (category t))
                 (filter is_expense txs)).
  { apply Forall_forall. intros t Ht. apply filter_In in Ht.
    destruct Ht as [Hin Hty]. apply Hfresh; [exact Hin |].
    unfold is_expense in Hty. now destruct (type t). }
  destruct (tally_entries category accumulate accumulate_body _ Hf)
    as [Hnd Hcats].
  set (cats := fold_left accumulate (filter is_expense txs) []) in *.
  assert (Hmem : forall k v,
             In (k, v) cats
             <-> Spec.expense_category k txs
                 /\ v = Num (Spec.expense_total k txs)).
  { intros k v. rewrite Hcats, expense_category_filter, filter_and.
    reflexivity. }
  set (sorted := sort_desc (map (fun e => {| name := fst e; value := snd e |})
                                (Object_entries cats))).
  assert (Hperm : Permutation sorted
                    (map (fun e => {| name := fst e; value := snd e |}) cats)).
  { unfold sorted. rewrite sort_desc_perm.
    apply Permutation_map, Object_entries_perm. }
  assert (Hin : forall s, In s sorted <->
                  Spec.expense_category (name s) txs
                  /\ value s = Num (Spec.expense_total (name s) txs)).
  { intros s. rewrite <- Hmem. split.
    - intros H. apply (Permutation_in _ Hperm) in H.
      apply in_map_iff in H. destruct H as ([k v] & <- & H). exact H.
    - intros H. apply (Permutation_in _ (Permutation_sym Hperm)).
      apply in_map_iff. exists (name s, value s). split; [| exact H].
      now destruct s. }
  assert (Htotal : forall s, In s sorted ->
                     In (toNumber (value s)) (Spec.expense_totals txs)).
  { intros s Hs. apply Hin in Hs. destruct Hs as [(t & Ht & Hty & Hc) Hv].
    rewrite Hv. cbn [toNumber]. unfold Spec.expense_totals.
    apply in_map_iff. exists t. split; [now rewrite Hc |].
    apply filter_In. split; [exact Ht | now rewrite Hty]. }
  exists sorted. split; [reflexivity | split; [| split; [exact Hin |]]].
  - apply (Permutation_NoDup (l := map fst cats)); [| exact Hnd].
    rewrite (Permutation_map name Hperm), map_map. cbn. reflexivity.
  - intros Hnum. apply descending.
    + apply Forall_forall. intros s Hs. rewrite Forall_forall in Hnum.
      apply Hnum. now apply Htotal.
    + unfold sorted.
      apply (sort_desc_sorted _ _ (numbers_ordered _ Hnum)).
      apply Forall_forall. intros s Hs. apply Htotal.
      exact (Permutation_in _ (Permutation_sym (sort_desc_perm _)) Hs).
Qed.

(** C7. The claim holds of its example, three expenses of 100 and 50 for
    Food and 30 for Transport: the chart data is Food with 150, then
    Transport with 30. It does not hold of every list. A category named
    like a member that every object inherits is not summed: the only
    expense of a statement, of 10 in the category [__proto__], leaves the
    chart data empty, and in the category [constructor] it leaves a slice
    whose value is no number but a text that ends in the amount. *)
Theorem categoryData_inherited_names :
  categoryData [Samples.inheritedName "__proto__"] = []
  /\ categoryData [Samples.inheritedName "constructor"]
     = [{| name := u "constructor"; value := Text (u "constructor") [10%float] |}]
  /\ (forall d1 d2 d3 s1 s2 s3,
        categoryData
          [{| date := d1; description := s1; amount := 100;
              type := EXPENSE; category := u "Food" |};
           {| date := d2; description := s2; amount := 50;
              type := EXPENSE; category := u "Food" |};
           {| date := d3; description := s3; amount := 30;
              type := EXPENSE; category := u "Transport" |}]
        = [{| name := u "Food"; value := Num 150 |};
           {| name := u "Transport"; value := Num 30 |}]).
Proof. repeat split. Qed.

End AggregationFacts.

(** ** The statements above at the sample data *)

Lemma send_empty_reply_default_witness :
  Gemini.chatSession Samples.world <> None
  /\ fst (Gemini.sendMessageToAssistant "Roast my spending habits in a funny way."
            (Runtime.Resolved (Some EmptyString)) Samples.world)
     = inr "I couldn't generate a response.".
Proof.
  split; [discriminate |].
  eapply send_empty_reply_default; [reflexivity | now right].
Defined.

Lemma send_failure_absorbed_witness :
  let r := Gemini.sendMessageToAssistant "What is my biggest expense category?"
             (Runtime.Rejected (Runtime.Rejection "503 Service Unavailable"))
             Samples.world in
  fst r = inr "Sorry, I encountered an error analyzing that request."
  /\ Gemini.chatSession (snd r) = Gemini.chatSession Samples.world.
Proof.
  cbv zeta.
  destruct (send_failure_absorbed Samples.world
              {| Gemini.chatModel := "gemini-2.5-flash";
                 Gemini.systemInstruction :=
                   {| Gemini.dataContext := Samples.statement;
                      Gemini.currencyRule := "USD" |};
                 Gemini.history := [] |}
              "What is my biggest expense category?"
              (Runtime.Rejection "503 Service Unavailable") eq_refl)
    as (Hreply & _ & Hsession & _).
  split; [exact Hreply | exact Hsession].
Defined.

Lemma extraction_failure_propagates_witness :
  Spec.malformed_or_empty Samples.parse (Some "{'summary': ")
  /\ App.appState
       (fst (App.handleFileProcess Samples.parse (Some "QUJD") "image/png"
               (Runtime.Resolved (Some "{'summary': "))
               (App.initial, Gemini.loaded)))
     = Types.ERROR
  /\ App.data
       (fst (App.handleFileProcess Samples.parse (Some "QUJD") "image/png"
               (Runtime.Resolved (Some "{'summary': "))
               (App.initial, Gemini.loaded)))
     = None.
Proof.
  assert (Hbad : Spec.malformed_or_empty Samples.parse (Some "{'summary': ")).
  { right. right. exists "{'summary': ". split; reflexivity. }
  split; [exact Hbad |].
  destruct (extraction_failure_propagates Samples.parse (Some "QUJD")
              "image/png" (Some "{'summary': ") App.initial Gemini.loaded Hbad)
    as (e & _ & Hstate & _ & Hnull & _).
  split; [exact Hstate | exact (Hnull eq_refl)].
Defined.

(** The dashboard of the samples is a state of the page: an upload, then the
    response with the body of the samples. *)
Lemma reachable_dashboard : App.reachable Samples.parse Samples.dashboard.
Proof.
  exists 0%nat.
  apply (App.run_step Samples.parse
           (App.Response (Some "QUJD") "image/png"
              (Runtime.Resolved (Some Samples.body)))
           1 0 (App.handleFileProcess_start App.initial, Gemini.loaded));
    [| reflexivity | reflexivity].
  apply (App.run_step Samples.parse App.Upload 0 1
           (App.initial, Gemini.loaded));
    [apply App.run_initial | reflexivity | reflexivity].
Qed.

Lemma reset_leaves_session_witness :
  App.reachable Samples.parse Samples.dashboard
  /\ App.data (App.resetApp (fst Samples.dashboard)) = None
  /\ exists session,
       Gemini.chatSession (snd Samples.dashboard) = Some session
       /\ Gemini.dataContext (Gemini.systemInstruction session)
          = Samples.statement.
Proof.
  split; [exact reachable_dashboard |].
  destruct (reset_leaves_session Samples.parse Samples.dashboard
              Samples.statement reachable_dashboard eq_refl eq_refl)
    as (_ & _ & Hdata & _ & Hsession & _).
  split; [exact Hdata | exact Hsession].
Defined.


Lemma ingestion_round_trip_witness :
  FileUpload.handleFileChange [Samples.png [x41; x42; x43]] None
    = {| FileUpload.error := None;
         FileUpload.reading := Some (Samples.png [x41; x42; x43]) |}
  /\ exists base64,
       FileUpload.onFileSelect_call [Samples.png [x41; x42; x43]] None
         = Some (Some base64, "image/png")
       /\ base64 = "QUJD"
       /\ Base64.decode base64 = Some [x41; x42; x43].
Proof.
  apply (ingestion_round_trip (Samples.png [x41; x42; x43]) [] None).
  - right. reflexivity.
  - vm_compute. discriminate.
  - reflexivity.
Defined.

Lemma send_is_serialized_witness :
  ChatInterface.hosted "Namaste!" Samples.world 1699999990000
    {| ChatInterface.current := Samples.waiting; ChatInterface.orphans := [] |}
  /\ ChatInterface.isTyping (ChatInterface.ui Samples.waiting) = true
  /\ ChatInterface.handleSend_call
       (Some "Roast my spending habits in a funny way.") 1700000000500
       (ChatInterface.ui Samples.waiting)
     = (ChatInterface.ui Samples.waiting, None)
  /\ (length (ChatInterface.inflight Samples.waiting) <= 1)%nat.
Proof.
  split; [exact hosted_waiting | split; [reflexivity |]].
  destruct (send_is_serialized "Namaste!" Samples.world 1699999990000
              {| ChatInterface.current := Samples.waiting;
                 ChatInterface.orphans := [] |}
              (Some "Roast my spending habits in a funny way.")
              1700000000500 hosted_waiting)
    as ((Hone & _) & Hguard & _).
  split; [exact (proj1 (Hguard (or_introl eq_refl))) | exact Hone].
Defined.

(** The case data of the samples keeps to the Basic Multilingual Plane. *)
Lemma sample_within_plane : Spec.within_plane Samples.caseData.
Proof.
  intros c Hc. cbn [Samples.caseData Unicode.lowerTable].
  match goal with |- context [if ?b then _ else _] => destruct b eqn:Hb end;
    [| exact Hc].
  rewrite !orb_true_iff, !andb_true_iff, !N.leb_le in Hb. lia.
Qed.

Lemma sample_texts_plain :
  Forall (fun t => Spec.plain (Types.description t)
                   /\ Spec.plain (Types.category t))
         (Types.transactions Samples.statement).
Proof.
  apply Forall_forall. intros t Ht. cbn in Ht.
  destruct Ht as [<- | [<- | [<- | []]]]; split; apply plain_literal;
    reflexivity.
Qed.

Lemma search_filter_exact_witness :
  Spec.within_plane Samples.caseData
  /\ Spec.plain (Unicode.u "COFFEE")
  /\ Dashboard.filteredTransactions Samples.caseData (Unicode.u "COFFEE")
       (Types.transactions Samples.statement)
     = [Samples.expense 100 "Food" "Starbucks Coffee"]
  /\ Spec.Exactly (Spec.matches Samples.caseData (Unicode.u "COFFEE"))
       (Types.transactions Samples.statement)
       (Dashboard.filteredTransactions Samples.caseData (Unicode.u "COFFEE")
          (Types.transactions Samples.statement)).
Proof.
  assert (Hterm : Spec.plain (Unicode.u "COFFEE"))
    by (apply plain_literal; reflexivity).
  split; [exact sample_within_plane | split; [exact Hterm |]].
  split; [reflexivity |].
  destruct (search_filter_exact Samples.caseData (Unicode.u "COFFEE")
              (Types.transactions Samples.statement)) as (_ & Hexact & _).
  exact (Hexact sample_within_plane Hterm sample_texts_plain).
Defined.

(** * Further properties of the sources *)

(** ** Extraction and the controller *)

Section ExtractionFacts.
Import Types Runtime Gemini App.

Variable JSON_parse : string -> option ParsedStatement.

Lemma extract_body_cases (response : Settled (option string)) :
  match extract_body JSON_parse response with
  | inr d =>
      exists t, response = Resolved (Some t) /\ t <> EmptyString
                /\ JSON_parse t = Some d
  | inl e =>
      match response with
      | Rejected e' => e = e'
      | Resolved None => e = Error "No response from AI"
      | Resolved (Some t) =>
          (t = EmptyString /\ e = Error "No response from AI")
          \/ (t <> EmptyString /\ JSON_parse t = None /\ e = SyntaxError)
      end
  end.
Proof.
  destruct response as [e | [t |]]; cbn; try reflexivity.
  destruct t as [| c t]; cbn; [now left |].
  destruct (JSON_parse (String c t)) as [d |] eqn:Hp.
  - exists (String c t). repeat split; [discriminate | exact Hp].
  - right. repeat split. discriminate.
Qed.

(** What [extractFinancialData] does with every response. It returns a
    dataset exactly when the call resolves with a non-empty text that
    parses, and then leaves the environment as it was. Otherwise it throws:
    the SDK's own error when the call was rejected, "No response from AI"
    for a missing or empty text, the parser's error for a text that does
    not parse; the error is logged once. The chat session is never
    touched. *)
Theorem extractFinancialData_outcome (base64 : option string)
  (mimeType : string) (response : Settled (option string)) (w : World) :
  let r := extractFinancialData JSON_parse base64 mimeType response w in
  chatSession (snd r) = chatSession w
  /\ match fst r with
     | inr d =>
         snd r = w
         /\ exists t, response = Resolved (Some t) /\ t <> EmptyString
                      /\ JSON_parse t = Some d
     | inl e =>
         console (snd r)
         = console w ++ [{| label := Some "Extraction error:"; thrown := e |}]
         /\ match response with
            | Rejected e' => e = e'
            | Resolved None => e = Error "No response from AI"
            | Resolved (Some t) =>
                (t = EmptyString /\ e = Error "No response from AI")
                \/ (t <> EmptyString /\ JSON_parse t = None
                    /\ e = SyntaxError)
            end
     end.
Proof.
  cbv zeta. unfold extractFinancialData.
  pose proof (extract_body_cases response) as H.
  destruct (extract_body JSON_parse response) as [e | d]; cbn; auto.
Qed.

(** A run of [handleFileProcess] whose extraction returns a dataset ends in
    the dashboard state with that dataset stored and the tab left as it
    was; whatever session existed is replaced by a new one that is bound to
    the new dataset and its currency and has no turn recorded. Nothing is
    logged. *)
Theorem handleFileProcess_replaces_session (base64 : option string)
  (mimeType : string) (response : Settled (option string)) (m : Model)
  (w : World) (d : ParsedStatement) :
  fst (extractFinancialData JSON_parse base64 mimeType response w) = inr d ->
  let st' := handleFileProcess JSON_parse base64 mimeType response (m, w) in
  appState (fst st') = DASHBOARD
  /\ data (fst st') = Some d
  /\ activeTab (fst st') = activeTab m
  /\ chatSession (snd st')
     = Some {| chatModel := "gemini-2.5-flash";
               systemInstruction :=
                 {| dataContext := d;
                    currencyRule := currency (summary d) |};
               history := [] |}
  /\ console (snd st') = console w.
Proof.
  intros Hd. assert (He : extract_body JSON_parse response = inr d).
  { unfold extractFinancialData in Hd.
    destruct (extract_body JSON_parse response); cbn in Hd; congruence. }
  cbv zeta. rewrite (handleFileProcess_success _ _ _ _ _ _ _ He).
  repeat split.
Qed.

(** A reset does not cancel an extraction in flight. When the user resets
    while the page is analyzing and the response arrives afterwards, the
    rest of [handleFileProcess] still runs: the page leaves the idle state
    for the dashboard of the late dataset, with a session bound to it, or
    for the error state. *)
Theorem late_response_after_reset (base64 : option string)
  (mimeType : string) (response : Settled (option string)) (m : Model)
  (w : World) :
  let analyzing := handleFileProcess_start m in
  let st' := handleFileProcess_settle JSON_parse base64 mimeType response
               (resetApp analyzing, w) in
  appState (resetApp analyzing) = IDLE
  /\ match fst (extractFinancialData JSON_parse base64 mimeType response w) with
     | inr d =>
         appState (fst st') = DASHBOARD
         /\ data (fst st') = Some d
         /\ exists session,
              chatSession (snd st') = Some session
              /\ dataContext (systemInstruction session) = d
     | inl _ => appState (fst st') = ERROR /\ data (fst st') = None
     end.
Proof.
  cbv zeta. split; [reflexivity |].
  unfold handleFileProcess_settle.
  destruct (extractFinancialData JSON_parse base64 mimeType response w)
    as [[e | d] w1]; cbn.
  - now split.
  - repeat split. eexists. split; reflexivity.
Qed.

(** What the controller keeps true from event to event, with uploads,
    resets and responses in any order, a response that arrives after a
    reset or after a later upload included. In the idle state no dataset is
    stored and the dashboard tab is selected; in the dashboard state a
    dataset is stored and the chat session is the one created for that very
    dataset; so the state always selects one of the blocks of the page. *)
Theorem controller_invariant (st : Model * World) :
  reachable JSON_parse st ->
  (appState (fst st) = IDLE ->
   data (fst st) = None /\ activeTab (fst st) = dashboardTab)
  /\ (appState (fst st) = DASHBOARD ->
      exists d session,
        data (fst st) = Some d
        /\ chatSession (snd st) = Some session
        /\ dataContext (systemInstruction session) = d)
  /\ mainView (fst st) <> NoView.
Proof.
  intros Hr. pose proof (reachable_consistent JSON_parse st Hr) as Hc.
  destruct Hc as (Hidle & Hdash & Hbound).
  split; [exact Hidle | split].
  - intros Hs. specialize (Hdash Hs).
    destruct (data (fst st)) as [d |] eqn:Hd; [| now contradiction Hdash].
    destruct (Hbound d eq_refl) as (session & Hsession & Hcontext).
    now exists d, session.
  - unfold mainView. destruct (appState (fst st)) eqn:Hs; try discriminate.
    specialize (Hdash eq_refl).
    destruct (data (fst st)); [| now contradiction Hdash].
    destruct (activeTab (fst st)); discriminate.
Qed.

End ExtractionFacts.

(** ** A whole chat turn and the transcript *)

Section TranscriptFacts.
Import Types Runtime ChatInterface.

(** One turn from a chat at rest. A send with a text that is not blank
    appends the user message, clears the input and, once the call has
    settled, appends one model message and clears the typing flag. The text
    of that message is the reply; the default text when the reply is empty
    or missing; the fallback of the service when the request failed; the
    connection message of the component, with the error logged, when no
    session was ever initialized. *)
Theorem chat_turn_outcome (s : State) (w : Gemini.World)
  (textOverride : option string) (now later : N)
  (result : Settled (option string)) :
  isTyping s = false ->
  JsString.trim (textToSend textOverride s) <> EmptyString ->
  exists c1 c2,
    step (Send textOverride now) {| ui := s; world := w; inflight := [] |}
      = Some c1
    /\ step (Settle result later) c1 = Some c2
    /\ messages (ui c2)
       = messages s
         ++ [{| id := toString now; role := user;
                text := textToSend textOverride s; timestamp := now |};
             {| id := toString (later + 1); role := model;
                text :=
                  match Gemini.chatSession w, result with
                  | None, _ =>
                      "I'm having trouble connecting right now. Please try again."
                  | Some _, Rejected _ =>
                      "Sorry, I encountered an error analyzing that request."
                  | Some _, Resolved t =>
                      or_else t "I couldn't generate a response."
                  end;
                timestamp := later |}]
    /\ input (ui c2) = EmptyString
    /\ isTyping (ui c2) = false
    /\ inflight c2 = []
    /\ (Gemini.chatSession w = None ->
        Gemini.console (world c2)
        = Gemini.console w
          ++ [{| label := None;
                 thrown := Error "Chat session not initialized" |}]).
Proof.
  intros Hidle Htext.
  assert (Hcall : handleSend_call textOverride now s
                  = (setIsTyping true
                       (setInput ""
                          (appendMessage
                             {| id := toString now; role := user;
                                text := textToSend textOverride s;
                                timestamp := now |} s)),
                     Some (textToSend textOverride s))).
  { unfold handleSend_call. rewrite Hidle.
    destruct (JsString.trim (textToSend textOverride s)); [congruence |].
    reflexivity. }
  exists {| ui := fst (handleSend_call textOverride now s); world := w;
            inflight := [textToSend textOverride s] |}.
  assert (Hsend : step (Send textOverride now)
                    {| ui := s; world := w; inflight := [] |}
                  = Some {| ui := fst (handleSend_call textOverride now s);
                            world := w;
                            inflight := [textToSend textOverride s] |}).
  { cbn [step ui world inflight]. now rewrite Hcall. }
  rewrite Hcall. cbn [fst]. rewrite Hcall in Hsend. cbn [fst] in Hsend.
  cbn [step ui world inflight app].
  unfold Gemini.sendMessageToAssistant.
  destruct (Gemini.chatSession w) as [session |] eqn:Hs;
    [destruct result as [e | t] |];
    cbn; eexists; (split; [exact Hsend |]); (split; [reflexivity |]);
    cbn; rewrite <- app_assoc; repeat split; intros; congruence.
Qed.

Lemma handleSend_call_extends (textOverride : option string) (now : N)
  (s : State) :
  exists added,
    messages (fst (handleSend_call textOverride now s)) = messages s ++ added
    /\ (length added <= 1)%nat.
Proof.
  unfold handleSend_call.
  destruct (negb (JsString.truthy (JsString.trim (textToSend textOverride s)))
            || isTyping s); cbn.
  - exists []. split; [now rewrite app_nil_r | cbn; lia].
  - eexists [_]. split; [reflexivity | cbn; lia].
Qed.

(** The transcript only grows, and by one message at a time: a step of the
    chat leaves the messages it found in place and adds at most one at the
    end, so the greeting stays first. Typing and dictation add none, start
    no request and leave the environment alone. *)
Theorem transcript_only_grows (greetingText : string) (w0 : Gemini.World)
  (t0 : N) (e : Event) (c c' : Conversation) :
  reachable greetingText w0 t0 c ->
  step e c = Some c' ->
  Spec.prefix_of (messages (ui c)) (messages (ui c'))
  /\ (length (messages (ui c')) <= length (messages (ui c)) + 1)%nat
  /\ Spec.prefix_of [greeting greetingText t0] (messages (ui c'))
  /\ (forall v, e = Typed v \/ e = Heard v ->
        messages (ui c') = messages (ui c)
        /\ inflight c' = inflight c /\ world c' = world c).
Proof.
  intros Hr Hstep.
  assert (Hadd : exists added,
             messages (ui c') = messages (ui c) ++ added
             /\ (length added <= 1)%nat).
  { destruct e as [v | transcript | textOverride now | result now];
      cbn [step] in Hstep.
    - injection Hstep as <-. exists []. cbn.
      split; [now rewrite app_nil_r | lia].
    - injection Hstep as <-. exists []. cbn.
      split; [now rewrite app_nil_r | lia].
    - pose proof (handleSend_call_extends textOverride now (ui c)) as Hx.
      destruct (handleSend_call textOverride now (ui c)) as [s call].
      injection Hstep as <-. exact Hx.
    - destruct (inflight c) as [| m rest]; [discriminate |].
      destruct (Gemini.sendMessageToAssistant m result (world c))
        as [answer w1].
      destruct (handleSend_settle_appends now answer (ui c) w1)
        as (reply & _ & Hmsgs & _).
      destruct (handleSend_settle now answer (ui c, w1)) as [s' w'].
      injection Hstep as <-. exists [reply]. split; [exact Hmsgs | cbn; lia]. }
  destruct Hadd as (added & Hmsgs & Hlen).
  assert (Hfirst : Spec.prefix_of [greeting greetingText t0] (messages (ui c))).
  { clear Hstep Hmsgs. induction Hr as [| e0 c0 c1 Hr0 IH Hstep0].
    - exists []. reflexivity.
    - destruct IH as [more Hmore].
      destruct e0 as [v | transcript | textOverride now | result now];
        cbn [step] in Hstep0.
      + injection Hstep0 as <-. now exists more.
      + injection Hstep0 as <-. now exists more.
      + pose proof (handleSend_call_extends textOverride now (ui c0))
          as (add0 & Hx & _).
        destruct (handleSend_call textOverride now (ui c0)) as [s call].
        injection Hstep0 as <-. cbn [ui fst] in *.
        exists (more ++ add0). rewrite Hx, Hmore. now rewrite <- app_assoc.
      + destruct (inflight c0) as [| m rest]; [discriminate |].
        destruct (Gemini.sendMessageToAssistant m result (world c0))
          as [answer w1].
        destruct (handleSend_settle_appends now answer (ui c0) w1)
          as (reply & _ & Hx & _).
        destruct (handleSend_settle now answer (ui c0, w1)) as [s' w'].
        injection Hstep0 as <-. cbn [ui fst] in *.
        exists (more ++ [reply]). rewrite Hx, Hmore. now rewrite <- app_assoc. }
  split; [now exists added | split; [| split]].
  - rewrite Hmsgs, length_app. lia.
  - destruct Hfirst as [more Hmore]. exists (more ++ added).
    rewrite Hmsgs, Hmore. now rewrite <- app_assoc.
  - intros v [-> | ->]; cbn [step] in Hstep; injection Hstep as <-;
      repeat split.
Qed.

End TranscriptFacts.

(** ** Speech: the request, the samples and the playback indicator *)

Section SpeechFacts.
Import Types Runtime ChatInterface.

Variable atob : string -> option string.

Lemma speakText_cases (text : string) (response : Settled (option string))
  (w : Gemini.World) :
  let r := Gemini.speakText text response w in
  Gemini.chatSession (snd r) = Gemini.chatSession w
  /\ match fst r with
     | inr audioData =>
         snd r = w /\ response = Resolved (Some audioData)
         /\ audioData <> EmptyString
     | inl e =>
         Gemini.console (snd r)
         = Gemini.console w ++ [{| label := Some "TTS Error:"; thrown := e |}]
         /\ (response = Rejected e
             \/ (e = Error "No audio data received from Gemini TTS"
                 /\ (response = Resolved None
                     \/ response = Resolved (Some EmptyString))))
     end.
Proof.
  cbv zeta. unfold Gemini.speakText.
  destruct response as [e | [[| c d] |]]; cbn; repeat split; auto.
  discriminate.
Qed.

(** What [speakText] does with every response. It returns the audio
    payload exactly when the call resolves with a payload that is not
    empty, and then leaves the environment as it was; otherwise it throws
    the SDK's own error or "No audio data received from Gemini TTS", logged
    once. The chat session is never touched. *)
Theorem speakText_outcome (text : string) (response : Settled (option string))
  (w : Gemini.World) :
  let r := Gemini.speakText text response w in
  Gemini.chatSession (snd r) = Gemini.chatSession w
  /\ match fst r with
     | inr audioData =>
         snd r = w /\ response = Resolved (Some audioData)
         /\ audioData <> EmptyString
     | inl e =>
         Gemini.console (snd r)
         = Gemini.console w ++ [{| label := Some "TTS Error:"; thrown := e |}]
         /\ (response = Rejected e
             \/ (e = Error "No audio data received from Gemini TTS"
                 /\ (response = Resolved None
                     \/ response = Resolved (Some EmptyString))))
     end.
Proof. exact (speakText_cases text response w). Qed.

Lemma int16_range (lo hi : byte) : (-32768 <= int16 lo hi < 32768)%Z.
Proof.
  unfold int16. pose proof (Byte.to_N_bounded lo). pose proof (Byte.to_N_bounded hi).
  destruct (Z.ltb_spec (Z.of_N (Byte.to_N lo) + 256 * Z.of_N (Byte.to_N hi)) 32768);
    lia.
Qed.

Lemma Int16Array_some (bytes : list byte) :
  (forall values, Int16Array bytes = Some values ->
     length bytes = (2 * length values)%nat
     /\ Forall (fun v => (-32768 <= v < 32768)%Z) values)
  /\ (forall b values, Int16Array (b :: bytes) = Some values ->
        length (b :: bytes) = (2 * length values)%nat
        /\ Forall (fun v => (-32768 <= v < 32768)%Z) values).
Proof.
  induction bytes as [| hi rest [IH1 IH2]].
  - split; intros; cbn in *; [| discriminate].
    injection H as <-. split; [reflexivity | constructor].
  - split; [exact (IH2 hi) |].
    intros lo values H. cbn [Int16Array] in H.
    destruct (Int16Array rest) as [vs |] eqn:Hrest; [| discriminate H].
    injection H as <-. destruct (IH1 vs eq_refl) as [Hlen Hall].
    split; [cbn [length]; lia | constructor; [apply int16_range | exact Hall]].
Qed.

Lemma Int16Array_none (bytes : list byte) :
  (Int16Array bytes = None <-> Nat.Odd (length bytes))
  /\ (forall b, Int16Array (b :: bytes) = None <-> Nat.Odd (length (b :: bytes))).
Proof.
  induction bytes as [| hi rest [IH1 IH2]].
  - split; [| intros b]; cbn; split; intros H; try discriminate; try reflexivity.
    + destruct H as [k Hk]. lia.
    + now exists O.
  - split; [exact (IH2 hi) |].
    intros lo. cbn [Int16Array length].
    destruct (Int16Array rest) as [vs |] eqn:Hrest.
    + split; [discriminate |]. intros [k Hk].
      assert (Hodd : Nat.Odd (length rest)) by (exists (k - 1)%nat; lia).
      apply IH1 in Hodd. discriminate.
    + split; [| reflexivity]. intros _.
      destruct (proj1 IH1 eq_refl) as [k Hk]. exists (S k). lia.
Qed.

Lemma binary_length (s : string) :
  length (map byte_of_ascii (list_ascii_of_string s)) = String.length s.
Proof.
  rewrite length_map. induction s as [| c s IH]; cbn; congruence.
Qed.

(** The samples of a payload. When [atob] reads the payload and the bytes
    come in pairs, there is one sample for every two bytes and each sample
    lies in the range from -1 (included) to 1 (excluded); no samples are
    produced exactly when [atob] refuses the payload or the number of bytes
    is odd. *)
Theorem pcmSamples_range (audioBase64 : string) :
  match pcmSamples atob audioBase64 with
  | Some samples =>
      exists binaryString,
        atob audioBase64 = Some binaryString
        /\ String.length binaryString = (2 * length samples)%nat
        /\ Forall (fun q => Qle (-1 # 1) q /\ Qlt q (1 # 1)) samples
  | None =>
      atob audioBase64 = None
      \/ exists binaryString,
           atob audioBase64 = Some binaryString
           /\ Nat.Odd (String.length binaryString)
  end.
Proof.
  unfold pcmSamples, decodeBase64.
  destruct (atob audioBase64) as [bin |]; cbn; [| now left].
  destruct (Int16Array (map byte_of_ascii (list_ascii_of_string bin)))
    as [values |] eqn:Hv; cbn.
  - apply (proj1 (Int16Array_some _)) in Hv. destruct Hv as [Hlen Hall].
    rewrite binary_length in Hlen. exists bin.
    split; [reflexivity | split].
    + unfold channelData. now rewrite length_map.
    + unfold channelData. apply Forall_map.
      eapply Forall_impl; [| exact Hall]. cbn. intros v Hv.
      unfold Qle, Qlt. cbn. lia.
  - right. exists bin. split; [reflexivity |].
    apply (proj1 (Int16Array_none _)) in Hv. now rewrite binary_length in Hv.
Qed.

Lemma handleSpeak_catch_state (err : Exn) (st : State * Gemini.World) :
  let st' := handleSpeak_catch err st in
  isLoadingAudio (fst st') = None /\ activeAudioId (fst st') = None
  /\ messages (fst st') = messages (fst st)
  /\ input (fst st') = input (fst st)
  /\ isTyping (fst st') = isTyping (fst st)
  /\ Gemini.chatSession (snd st') = Gemini.chatSession (snd st).
Proof. cbn. repeat split. Qed.

Lemma handleSpeak_settle_state (msgId : string) (speech : Exn + string)
  (context output : Settled unit) (st : State * Gemini.World) :
  let st' := handleSpeak_settle atob msgId speech context output st in
  isLoadingAudio (fst st') = None
  /\ (activeAudioId (fst st') = Some msgId \/ activeAudioId (fst st') = None)
  /\ messages (fst st') = messages (fst st)
  /\ input (fst st') = input (fst st)
  /\ isTyping (fst st') = isTyping (fst st)
  /\ Gemini.chatSession (snd st') = Gemini.chatSession (snd st)
  /\ (activeAudioId (fst st') = Some msgId ->
      exists audioData samples,
        speech = inr audioData
        /\ pcmSamples atob audioData = Some samples
        /\ context = Resolved tt /\ output = Resolved tt).
Proof.
  cbv zeta. unfold handleSpeak_settle, pcmSamples.
  destruct speech as [e | audioData];
    [cbn; repeat split; auto; congruence |].
  destruct context as [e | []];
    [cbn; repeat split; auto; congruence |].
  destruct (decodeBase64 atob audioData) as [pcmData |] eqn:Hd;
    [| cbn; repeat split; auto; congruence].
  destruct (Int16Array pcmData) as [values |] eqn:Hv;
    [| cbn; repeat split; auto; congruence].
  destruct output as [e | []];
    [cbn; repeat split; auto; congruence |].
  cbn. repeat split; auto.
  exists audioData, (channelData values). rewrite Hd, Hv. repeat split.
Qed.

(** Whatever happens to a click on the speaker button, once the handler
    has run the loading indicator is off, the transcript, the input, the
    typing flag and the chat session are as before, and the message is
    marked as playing only if everything went well: the click was not on
    the playing message, the service sent a payload, the audio context was
    there, the payload decoded to whole samples and the source started. In
    every other case no message is marked. *)
Theorem handleSpeak_always_settles (msgId text : string)
  (response : Settled (option string)) (context output : Settled unit)
  (st : State * Gemini.World) :
  let st' := handleSpeak atob msgId text response context output st in
  isLoadingAudio (fst st') = None
  /\ (activeAudioId (fst st') = Some msgId \/ activeAudioId (fst st') = None)
  /\ messages (fst st') = messages (fst st)
  /\ input (fst st') = input (fst st)
  /\ isTyping (fst st') = isTyping (fst st)
  /\ Gemini.chatSession (snd st') = Gemini.chatSession (snd st)
  /\ (activeAudioId (fst st') = Some msgId ->
      is_active (fst st) msgId = false
      /\ exists audioData samples,
           response = Resolved (Some audioData)
           /\ audioData <> EmptyString
           /\ pcmSamples atob audioData = Some samples
           /\ context = Resolved tt /\ output = Resolved tt).
Proof.
  cbv zeta. destruct st as [s w]. unfold handleSpeak, handleSpeak_call.
  cbn [fst snd]. destruct (is_active s msgId) eqn:Hact.
  { cbn. repeat split; auto; congruence. }
  remember (setIsLoadingAudio (Some msgId)
              match activeAudioId s with
              | Some a => if JsString.truthy a then stopAudio s else s
              | None => s
              end) as s1 eqn:Hs1.
  assert (Hkeep : messages s1 = messages s /\ input s1 = input s
                  /\ isTyping s1 = isTyping s).
  { subst s1. destruct (activeAudioId s) as [a |];
      [destruct (JsString.truthy a) |]; repeat split. }
  destruct Hkeep as (Hm & Hi & Ht).
  pose proof (speakText_cases
                (Gemini.tts_text
                   (Gemini.speechRequest (JsString.removeAll emphasis text)))
                response w) as Hspeak.
  cbv zeta in Hspeak.
  destruct (Gemini.speakText _ response w) as [speech w1].
  cbn [fst snd] in Hspeak. destruct Hspeak as [Hsession Hout].
  pose proof (handleSpeak_settle_state msgId speech context output (s1, w1))
    as Hsettle.
  cbv zeta in Hsettle. cbn [fst snd] in Hsettle.
  destruct Hsettle as (Hload & Hmark & Hm' & Hi' & Ht' & Hs' & Hgood).
  split; [exact Hload | split; [exact Hmark |]].
  split; [congruence | split; [congruence | split; [congruence |]]].
  split; [congruence |].
  intros Hplaying. split; [reflexivity |].
  destruct (Hgood Hplaying)
    as (audioData & samples & -> & Hpcm & Hctx & Hsrc).
  destruct Hout as (_ & Hresp & Hne).
  exists audioData, samples. repeat split; assumption.
Qed.

End SpeechFacts.


(** ** The charts: totals, order and colours *)

Section ChartFacts.
Import Types Unicode Dashboard.

Lemma addDay_body (days : Categories) (t : Transaction) :
  addDay days t
  = assign days (skipn 5 (date t))
      (plus (or_zero (read days (skipn 5 (date t)))) (amount t)).
Proof. reflexivity. Qed.

Lemma entries_empty (cats : Categories) :
  Object_entries cats = [] <-> cats = [].
Proof.
  split.
  - intros H. pose proof (Object_entries_perm cats) as Hperm.
    rewrite H in Hperm. now apply Permutation_nil in Hperm.
  - now intros ->.
Qed.

Lemma sort_desc_empty (l : list Slice) : sort_desc l = [] <-> l = [].
Proof.
  split.
  - intros H. pose proof (sort_desc_perm l) as Hperm.
    rewrite H in Hperm. now apply Permutation_nil in Hperm.
  - now intros ->.
Qed.

Lemma firstn_empty {A : Type} (n : nat) (l : list A) :
  firstn (S n) l = [] <-> l = [].
Proof. destruct l; split; intros H; try reflexivity; discriminate H. Qed.

Lemma map_empty {A B : Type} (g : A -> B) (l : list A) :
  map g l = [] <-> l = [].
Proof. destruct l; split; intros H; try reflexivity; discriminate H. Qed.

(** The daily chart of a statement none of whose dates ends, after its
    first five code units, in an inherited name: there is one bar for every
    such ending, none twice; the amount of a bar is the total of the
    amounts of all transactions of that day, income and expense alike,
    added up in the order of the statement; when no amount is negative,
    that total is their sum and is not negative; and there is no bar
    exactly when there is no transaction. *)
Theorem dailyVolume_totals (txs : list Transaction) :
  Forall (fun t => Spec.fresh_name (skipn 5 (date t))) txs ->
  NoDup (map bar_name (dailyVolume txs))
  /\ (forall b, In b (dailyVolume txs) <->
        (exists t, In t txs /\ skipn 5 (date t) = bar_name b)
        /\ bar_amount b = Num (Spec.day_total (bar_name b) txs))
  /\ (Forall (fun t => Spec.nonnegative (amount t)) txs ->
      forall b, In b (dailyVolume txs) ->
        bar_amount b = Num (Spec.sum (Spec.day_amounts (bar_name b) txs))
        /\ Spec.nonnegative (Spec.sum (Spec.day_amounts (bar_name b) txs)))
  /\ (dailyVolume txs = [] <-> txs = []).
Proof.
  intros Hfresh.
  destruct (tally_entries (fun t => skipn 5 (date t)) addDay addDay_body
              txs Hfresh) as [Hnd Hdays].
  unfold dailyVolume. set (days := fold_left addDay txs []) in *.
  pose proof (Object_entries_perm days) as Hperm.
  assert (Hmem : forall b,
             In b (map (fun e => {| bar_name := fst e; bar_amount := snd e |})
                       (Object_entries days))
             <-> (exists t, In t txs /\ skipn 5 (date t) = bar_name b)
                 /\ bar_amount b = Num (Spec.day_total (bar_name b) txs)).
  { intros b. rewrite <- (Hdays (bar_name b) (bar_amount b)).
    rewrite in_map_iff. split.
    - intros ([k v] & <- & H). exact (Permutation_in _ Hperm H).
    - intros H. exists (bar_name b, bar_amount b). split; [now destruct b |].
      exact (Permutation_in _ (Permutation_sym Hperm) H). }
  split; [| split; [exact Hmem | split]].
  - rewrite map_map. cbn.
    apply (Permutation_NoDup (l := map fst days)); [| exact Hnd].
    apply Permutation_map, Permutation_sym, Hperm.
  - intros Hpos b Hb. apply Hmem in Hb. destruct Hb as [_ Hb].
    assert (Hday : Forall Spec.nonnegative (Spec.day_amounts (bar_name b) txs)).
    { unfold Spec.day_amounts. apply Forall_map.
      apply Forall_forall. intros t Ht. apply filter_In in Ht.
      rewrite Forall_forall in Hpos. now apply Hpos. }
    destruct (add_up_nonnegative _ Hday) as [Hsum Hnn].
    split; [| exact Hnn]. rewrite Hb. unfold Spec.day_total. now rewrite Hsum.
  - split.
    + intros Hempty. destruct txs as [| t txs']; [reflexivity | exfalso].
      assert (Hb : In {| bar_name := skipn 5 (date t);
                         bar_amount :=
                           Num (Spec.day_total (skipn 5 (date t)) (t :: txs')) |}
                      (map (fun e => {| bar_name := fst e; bar_amount := snd e |})
                           (Object_entries days))).
      { apply Hmem. cbn [bar_name bar_amount]. split; [| reflexivity].
        exists t. split; [now left | reflexivity]. }
      rewrite Hempty in Hb. exact Hb.
    + intros ->. reflexivity.
Qed.

(** The category chart is empty exactly when every EXPENSE transaction of
    the statement, if there is any, is in the category [__proto__]; INCOME
    transactions never make a slice. *)
Theorem categoryData_empty (txs : list Transaction) :
  categoryData txs = []
  <-> (forall t, In t txs -> type t = EXPENSE -> category t = u "__proto__").
Proof.
  unfold categoryData.
  rewrite firstn_empty, sort_desc_empty, map_empty, entries_empty.
  rewrite (tally_empty category accumulate accumulate_body). split.
  - intros [_ Hall] t Hin Hty. apply Hall. apply filter_In.
    split; [exact Hin |]. unfold is_expense. now rewrite Hty.
  - intros Hall. split; [reflexivity |]. intros t Ht.
    apply filter_In in Ht. destruct Ht as [Hin Hty]. apply Hall; [exact Hin |].
    unfold is_expense in Hty. now destruct (type t).
Qed.

(** The category chart of a statement none of whose EXPENSE categories has
    an inherited name and none of whose category totals is NaN. It lists
    categories of EXPENSE transactions, each once and with its total: the
    amounts of its EXPENSE transactions added up in the order of the
    statement. The slices are in descending order of their totals; the
    chart keeps the first six, so a category it leaves out has a total no
    larger than any it shows. *)
Theorem category_totals_ranked (txs : list Transaction) :
  (forall t, In t txs -> type t = EXPENSE -> Spec.fresh_name (category t)) ->
  Forall (fun x => is_nan x = false) (Spec.expense_totals txs) ->
  StronglySorted
    (fun x y => (toNumber (value y) <=? toNumber (value x))%float = true)
    (categoryData txs)
  /\ NoDup (map name (categoryData txs))
  /\ (length (categoryData txs) <= 6)%nat
  /\ (forall s, In s (categoryData txs) ->
                Spec.expense_category (name s) txs
                /\ value s = Num (Spec.expense_total (name s) txs))
  /\ (forall c, Spec.expense_category c txs ->
                In {| name := c; value := Num (Spec.expense_total c txs) |}
                   (categoryData txs)
                \/ (length (categoryData txs) = 6%nat
                    /\ forall s, In s (categoryData txs) ->
                         (Spec.expense_total c txs <=? toNumber (value s))%float
                         = true)).
Proof.
  intros Hfresh Hnum.
  destruct (ranked_entries txs Hfresh) as (sorted & Htop & Hnd & Hin & Hsorted).
  specialize (Hsorted Hnum). rewrite Htop.
  pose proof (firstn_skipn 6 sorted) as Hsplit.
  rewrite <- Hsplit in Hsorted, Hnd.
  apply sorted_app_inv in Hsorted. destruct Hsorted as [Hs1 Hcross].
  rewrite map_app in Hnd. apply NoDup_app_remove_r in Hnd.
  split; [exact Hs1 | split; [exact Hnd | split; [apply firstn_le_length |]]].
  split.
  - intros s Hs. apply Hin. rewrite <- Hsplit. apply in_or_app. now left.
  - intros c Hc.
    assert (Hmem : In {| name := c; value := Num (Spec.expense_total c txs) |}
                      sorted)
      by (apply Hin; now split).
    rewrite <- Hsplit in Hmem. apply in_app_or in Hmem.
    destruct Hmem as [Hl | Hr]; [now left | right]. split.
    + rewrite length_firstn. apply Nat.min_l.
      destruct (Nat.le_gt_cases 6 (length sorted)) as [Hle | Hgt]; [exact Hle |].
      rewrite skipn_all2 in Hr by lia. contradiction.
    + intros s Hs. exact (Hcross _ _ Hs Hr).
Qed.

Lemma expense_amounts_nonnegative (c : ustring) (txs : list Transaction) :
  (forall t, In t txs -> type t = EXPENSE -> Spec.nonnegative (amount t)) ->
  Forall Spec.nonnegative (Spec.expense_amounts c txs).
Proof.
  intros Hpos. unfold Spec.expense_amounts. apply Forall_map.
  apply Forall_forall. intros t Ht. apply filter_In in Ht.
  destruct Ht as [Hin Hty]. apply Hpos; [exact Hin |].
  apply andb_true_iff in Hty. destruct Hty as [Hty _].
  now destruct (type t).
Qed.

(** When no EXPENSE amount is negative (or NaN) and no EXPENSE category has
    an inherited name, the value of every slice is the sum of the amounts
    of the EXPENSE transactions of its category, added in the order of the
    statement, and is not negative; so no total is NaN, and the slices are
    in descending order. *)
Theorem category_totals_are_sums (txs : list Transaction) :
  (forall t, In t txs -> type t = EXPENSE -> Spec.fresh_name (category t)) ->
  (forall t, In t txs -> type t = EXPENSE -> Spec.nonnegative (amount t)) ->
  (forall s, In s (categoryData txs) ->
     value s = Num (Spec.sum (Spec.expense_amounts (name s) txs))
     /\ Spec.nonnegative (Spec.sum (Spec.expense_amounts (name s) txs)))
  /\ Forall (fun x => is_nan x = false) (Spec.expense_totals txs)
  /\ StronglySorted
       (fun x y => (toNumber (value y) <=? toNumber (value x))%float = true)
       (categoryData txs).
Proof.
  intros Hfresh Hpos.
  assert (Hsum : forall c,
             Spec.expense_total c txs = Spec.sum (Spec.expense_amounts c txs)
             /\ Spec.nonnegative (Spec.sum (Spec.expense_amounts c txs))).
  { intros c. apply add_up_nonnegative.
    now apply expense_amounts_nonnegative. }
  assert (Hnum : Forall (fun x => is_nan x = false) (Spec.expense_totals txs)).
  { unfold Spec.expense_totals. apply Forall_map. apply Forall_forall.
    intros t _. apply nonnegative_number.
    destruct (Hsum (category t)) as [-> H]. exact H. }
  destruct (ranked_entries txs Hfresh) as (sorted & Htop & _ & Hin & Hsorted).
  specialize (Hsorted Hnum). rewrite Htop.
  pose proof (firstn_skipn 6 sorted) as Hsplit.
  split; [| split; [exact Hnum |]].
  - intros s Hs.
    assert (Hs' : In s sorted)
      by (rewrite <- Hsplit; apply in_or_app; now left).
    apply Hin in Hs'. destruct Hs' as [_ Hv].
    destruct (Hsum (name s)) as [Heq Hnn]. split; [| exact Hnn].
    now rewrite Hv, Heq.
  - rewrite <- Hsplit in Hsorted. apply sorted_app_inv in Hsorted.
    apply Hsorted.
Qed.

(** The slices of the category chart are filled with colours that differ
    from one another: there are at most six slices and seven colours. *)
Theorem slice_colours_differ (txs : list Transaction) (i j : nat) :
  (i < j)%nat -> (j < length (categoryData txs))%nat ->
  exists ci cj, cellFill i = Some ci /\ cellFill j = Some cj /\ ci <> cj.
Proof.
  intros Hij Hj.
  assert (Hsix : (length (categoryData txs) <= 6)%nat)
    by (unfold categoryData; apply firstn_le_length).
  assert (Hj6 : (j < 6)%nat) by lia. clear Hj Hsix.
  destruct j as [| [| [| [| [| [| j]]]]]]; try lia;
    destruct i as [| [| [| [| [| [| i]]]]]]; try lia;
    eexists; eexists; (split; [reflexivity |]); (split; [reflexivity |]);
    discriminate.
Qed.

(** Every category gets one of the six badge classes, never an undefined
    one; the empty category gets the first. *)
Theorem getCategoryColor_defined (category : ustring) :
  (exists cls, getCategoryColor category = Some cls /\ In cls colors)
  /\ getCategoryColor [] = Some "bg-blue-100 text-blue-700 border-blue-200".
Proof.
  split; [| reflexivity]. unfold getCategoryColor.
  set (index := Z.to_nat _).
  assert (Hindex : (index < length colors)%nat).
  { subst index. change (length colors) with 6%nat.
    change (Z.of_nat 6) with 6%Z.
    pose proof (Z.mod_pos_bound (Z.abs (hashFrom 0 category)) 6). lia. }
  destruct (nth_error colors index) as [cls |] eqn:Hnth.
  - exists cls. split; [reflexivity |]. exact (nth_error_In _ _ Hnth).
  - apply nth_error_None in Hnth. lia.
Qed.

End ChartFacts.


(** ** The further statements at the sample data *)

Lemma handleFileProcess_replaces_session_witness :
  Gemini.chatSession Samples.world <> None
  /\ Gemini.chatSession
       (snd (App.handleFileProcess Samples.parse (Some "QUJD") "image/png"
               (Runtime.Resolved (Some Samples.body))
               (App.resetApp (fst Samples.dashboard), Samples.world)))
     = Some {| Gemini.chatModel := "gemini-2.5-flash";
               Gemini.systemInstruction :=
                 {| Gemini.dataContext := Samples.statement;
                    Gemini.currencyRule := "USD" |};
               Gemini.history := [] |}.
Proof.
  split; [discriminate |].
  destruct (handleFileProcess_replaces_session Samples.parse (Some "QUJD")
              "image/png" (Runtime.Resolved (Some Samples.body))
              (App.resetApp (fst Samples.dashboard)) Samples.world
              Samples.statement eq_refl)
    as (_ & _ & _ & Hsession & _).
  exact Hsession.
Defined.

(** The page of the samples after an upload, a reset, a second upload, the
    response to the first and an empty response to the second. *)
Lemma reachable_stale : App.reachable Samples.parse Samples.stale.
Proof.
  exists 0%nat.
  apply (App.run_step Samples.parse
           (App.Response (Some "QUJD") "image/png" (Runtime.Resolved None))
           1 0
           (App.handleFileProcess_settle Samples.parse (Some "QUJD")
              "image/png" (Runtime.Resolved (Some Samples.body))
              (App.handleFileProcess_start
                 (App.resetApp (App.handleFileProcess_start App.initial)),
               Gemini.loaded)));
    [| reflexivity | reflexivity].
  apply (App.run_step Samples.parse
           (App.Response (Some "QUJD") "image/png"
              (Runtime.Resolved (Some Samples.body)))
           2 1
           (App.handleFileProcess_start
              (App.resetApp (App.handleFileProcess_start App.initial)),
            Gemini.loaded));
    [| reflexivity | reflexivity].
  apply (App.run_step Samples.parse App.Upload 1 2
           (App.resetApp (App.handleFileProcess_start App.initial),
            Gemini.loaded));
    [| reflexivity | reflexivity].
  apply (App.run_step Samples.parse App.NewUpload 1 1
           (App.handleFileProcess_start App.initial, Gemini.loaded));
    [| reflexivity | reflexivity].
  apply (App.run_step Samples.parse App.Upload 0 1
           (App.initial, Gemini.loaded));
    [apply App.run_initial | reflexivity | reflexivity].
Qed.

Lemma controller_invariant_witness :
  App.reachable Samples.parse Samples.stale
  /\ App.appState (fst Samples.stale) = Types.ERROR
  /\ App.data (fst Samples.stale) = Some Samples.statement
  /\ App.mainView (fst Samples.stale) <> App.NoView.
Proof.
  split; [exact reachable_stale | split; [reflexivity | split; [reflexivity |]]].
  destruct (controller_invariant Samples.parse Samples.stale reachable_stale)
    as (_ & _ & Hview).
  exact Hview.
Defined.

Lemma chat_turn_outcome_witness :
  exists c1 c2,
    ChatInterface.step (ChatInterface.Send None 1700000000000)
      {| ChatInterface.ui :=
           ChatInterface.setInput "What is my biggest expense category?"
             (ChatInterface.mounted "Namaste!" 1699999990000);
         ChatInterface.world := Gemini.loaded;
         ChatInterface.inflight := [] |} = Some c1
    /\ ChatInterface.step
         (ChatInterface.Settle (Runtime.Resolved (Some "Food.")) 1700000002000)
         c1 = Some c2
    /\ map Types.text (ChatInterface.messages (ChatInterface.ui c2))
       = ["Namaste!"; "What is my biggest expense category?";
          "I'm having trouble connecting right now. Please try again."].
Proof.
  destruct (chat_turn_outcome
              (ChatInterface.setInput "What is my biggest expense category?"
                 (ChatInterface.mounted "Namaste!" 1699999990000))
              Gemini.loaded None 1700000000000 1700000002000
              (Runtime.Resolved (Some "Food.")) eq_refl)
    as (c1 & c2 & Hsend & Hsettle & Hmessages & _).
  { vm_compute. discriminate. }
  exists c1, c2. split; [exact Hsend | split; [exact Hsettle |]].
  rewrite Hmessages. reflexivity.
Defined.

Lemma transcript_only_grows_witness :
  ChatInterface.step
    (ChatInterface.Settle (Runtime.Resolved (Some "Food, with 150 USD."))
       1700000002000) Samples.waiting = Some Samples.answered
  /\ Spec.prefix_of
       (ChatInterface.messages (ChatInterface.ui Samples.waiting))
       (ChatInterface.messages (ChatInterface.ui Samples.answered))
  /\ length (ChatInterface.messages (ChatInterface.ui Samples.answered)) = 3%nat.
Proof.
  assert (Hr : ChatInterface.reachable "Namaste!" Samples.world 1699999990000
                 Samples.waiting).
  { eapply ChatInterface.reachable_step
      with (e := ChatInterface.Send None 1700000000000).
    - eapply ChatInterface.reachable_step
        with (e := ChatInterface.Typed "What is my biggest expense category?").
      + apply ChatInterface.reachable_mounted.
      + reflexivity.
    - reflexivity. }
  split; [reflexivity |].
  destruct (transcript_only_grows "Namaste!" Samples.world 1699999990000
              (ChatInterface.Settle
                 (Runtime.Resolved (Some "Food, with 150 USD.")) 1700000002000)
              Samples.waiting Samples.answered Hr eq_refl)
    as (Hprefix & _).
  split; [exact Hprefix | reflexivity].
Defined.

Lemma slice_colours_differ_witness :
  length (Dashboard.categoryData (Types.transactions Samples.statement)) = 2%nat
  /\ exists ci cj,
       Dashboard.cellFill 0 = Some ci /\ Dashboard.cellFill 1 = Some cj
       /\ ci <> cj.
Proof.
  split; [reflexivity |].
  apply (slice_colours_differ (Types.transactions Samples.statement) 0 1).
  - lia.
  - vm_compute. lia.
Defined.

Lemma search_narrows_witness :
  Spec.contains_ignoring_case Samples.caseData (Unicode.u "Coffee")
    (Unicode.u "co")
  /\ Dashboard.filteredTransactions Samples.caseData (Unicode.u "Coffee")
       (Dashboard.filteredTransactions Samples.caseData (Unicode.u "co")
          (Types.transactions Samples.statement))
     = Dashboard.filteredTransactions Samples.caseData (Unicode.u "Coffee")
         (Types.transactions Samples.statement).
Proof.
  assert (Hsub : Spec.contains_ignoring_case Samples.caseData
                   (Unicode.u "Coffee") (Unicode.u "co")).
  { exists [], (Unicode.u "Co"), (Unicode.u "ffee"). split; [reflexivity |].
    repeat constructor. }
  split; [exact Hsub |].
  destruct (search_narrows Samples.caseData (Unicode.u "co")
              (Unicode.u "Coffee") (Types.transactions Samples.statement))
    as (Hnarrow & Hlower & _).
  apply Hnarrow, Hlower; try exact Hsub; try exact sample_within_plane;
    apply plain_literal; reflexivity.
Defined.

Lemma dailyVolume_totals_witness :
  Forall (fun t => Spec.fresh_name (skipn 5 (Types.date t)))
         (Types.transactions Samples.statement)
  /\ NoDup (map Dashboard.bar_name
              (Dashboard.dailyVolume (Types.transactions Samples.statement)))
  /\ Dashboard.dailyVolume (Types.transactions Samples.statement)
     = [{| Dashboard.bar_name := Unicode.u "01-15";
           Dashboard.bar_amount := Dashboard.Num 180 |}].
Proof.
  assert (Hfresh : Forall (fun t => Spec.fresh_name (skipn 5 (Types.date t)))
                     (Types.transactions Samples.statement)).
  { repeat constructor; apply fresh_not_inherited; reflexivity. }
  split; [exact Hfresh | split; [| reflexivity]].
  exact (proj1 (dailyVolume_totals (Types.transactions Samples.statement)
                  Hfresh)).
Defined.

Lemma sample_categories_fresh :
  forall t, In t (Types.transactions Samples.statement) ->
            Types.type t = Types.EXPENSE ->
            Spec.fresh_name (Types.category t).
Proof.
  intros t Ht _. cbn in Ht.
  destruct Ht as [<- | [<- | [<- | []]]]; apply fresh_not_inherited;
    reflexivity.
Qed.

Lemma category_totals_ranked_witness :
  Forall (fun x => is_nan x = false)
         (Spec.expense_totals (Types.transactions Samples.statement))
  /\ Spec.expense_totals (Types.transactions Samples.statement)
     = [150; 150; 30]%float
  /\ StronglySorted
       (fun x y =>
          (Dashboard.toNumber (Dashboard.value y)
           <=? Dashboard.toNumber (Dashboard.value x))%float = true)
       (Dashboard.categoryData (Types.transactions Samples.statement))
  /\ Dashboard.categoryData (Types.transactions Samples.statement)
     = [{| Dashboard.name := Unicode.u "Food";
           Dashboard.value := Dashboard.Num 150 |};
        {| Dashboard.name := Unicode.u "Transport";
           Dashboard.value := Dashboard.Num 30 |}].
Proof.
  assert (Hnum : Forall (fun x => is_nan x = false)
                   (Spec.expense_totals (Types.transactions Samples.statement)))
    by (repeat constructor).
  split; [exact Hnum | split; [reflexivity |]].
  split; [| reflexivity].
  exact (proj1 (category_totals_ranked (Types.transactions Samples.statement)
                  sample_categories_fresh Hnum)).
Defined.

Lemma category_totals_are_sums_witness :
  (forall t, In t (Types.transactions Samples.statement) ->
             Types.type t = Types.EXPENSE ->
             Spec.nonnegative (Types.amount t))
  /\ Spec.sum (Spec.expense_amounts (Unicode.u "Food")
                 (Types.transactions Samples.statement)) = 150%float
  /\ Forall (fun x => is_nan x = false)
       (Spec.expense_totals (Types.transactions Samples.statement)).
Proof.
  assert (Hpos : forall t, In t (Types.transactions Samples.statement) ->
                   Types.type t = Types.EXPENSE ->
                   Spec.nonnegative (Types.amount t)).
  { intros t Ht _. cbn in Ht.
    destruct Ht as [<- | [<- | [<- | []]]]; reflexivity. }
  split; [exact Hpos | split; [reflexivity |]].
  destruct (category_totals_are_sums (Types.transactions Samples.statement)
              sample_categories_fresh Hpos) as (_ & Hnum & _).
  exact Hnum.
Defined.
